(** * GPT-SoVITS2: the multi-device semantic-token extraction pipeline

    A shallow embedding of
    [GPT_SoVITS/prepare_datasets/2-get-semantic-GPUs.py]:

    - [data_batches]  the slicing of the work list done by [async_process];
    - [producer] and [process_gpu], one pair per GPU, talking over a FIFO
      device queue;
    - [consumer], the process that saves the results;
    - [discover], the label-file walk of the [__main__] block.

    A queue is the FIFO list of the messages put on it, and Python's [None]
    sentinel is the [None] of [option].  Strings are byte strings: the
    separators the code looks for (the bar and the slash) are ASCII, and no
    byte of a multi-byte UTF-8 character is ASCII, so splitting bytes and
    splitting characters agree.  The numeric collaborators (audio loading
    and the mel-spectrogram, the ONNX session, text decoding) are the fields
    of two interfaces, [Collaborators] and [LabelFiles].  Of the exceptions
    raised inside them the model has the two that the decoders of
    [LabelFiles] raise, [UnicodeDecodeError], which line 182 catches, and
    [UnicodeError], which it does not. *)

From Stdlib Require Import Ascii.
From stdpp Require Import gmap strings list pretty.

(** ** Part I: the embedding *)

(** *** Python library functions used by the script *)

Module Py.

(** The exceptions that the modelled code can raise. *)
Inductive error :=
  | ZeroDivisionError
  | IndexError.

(** [l[i:j]] for non-negative [i] and [j]: both ends are clamped to the
    length of the list, and the slice is empty when [j <= i]. *)
Definition slice {A} (l : list A) (i j : nat) : list A :=
  take (j - i) (drop i l).

(** [l[i:]] for a non-negative [i]. *)
Definition slice_from {A} (l : list A) (i : nat) : list A :=
  drop i l.

(** [ls[-1].extend(ext)]: the last list of [ls] grows in place; indexing an
    empty [ls] raises. *)
Definition extend_last {A} (ls : list (list A)) (ext : list A)
  : error + list (list A) :=
  match ls with
  | [] => inl IndexError
  | _ => inr (alter (λ b, b ++ ext) (length ls - 1) ls)
  end.

(** [s.startswith(p)] and [s.endswith(p)]. *)
Definition startswith (s p : string) : bool := String.prefix p s.

Definition endswith (s p : string) : bool :=
  bool_decide (String.length p ≤ String.length s)
  && String.eqb
       (String.substring (String.length s - String.length p)
                         (String.length p) s) p.

(** One round of the loop of [posixpath.join]. *)
Definition join_step (path b : string) : string :=
  if startswith b "/" then b
  else if String.eqb path "" || endswith path "/" then path +:+ b
  else path +:+ "/" +:+ b.

(** [os.path.join(a, *p)]. *)
Definition path_join (a : string) (p : list string) : string :=
  foldl join_step a p.

(** [s.split(sep)] for a one-character separator: every occurrence of
    [sep] cuts, and the result is never empty. *)
Fixpoint split (sep : Ascii.ascii) (s : string) : list string :=
  match s with
  | EmptyString => [EmptyString]
  | String c s' =>
      if Ascii.eqb c sep then EmptyString :: split sep s'
      else match split sep s' with
           | [] => [String c EmptyString]
           | field :: fields => String c field :: fields
           end
  end.

(** [np.save(file, arr)] on a file system seen as a map from paths to
    contents: the file is opened for writing, so an older content is
    replaced; numpy appends the extension when the name lacks it. *)
Definition np_save {V} (disk : gmap string V) (file : string) (arr : V)
  : gmap string V :=
  let file := if endswith file ".npy" then file else file +:+ ".npy" in
  <[file := arr]> disk.

End Py.

(** *** Data model *)

(** A work item, built on line 191 as
    [[spk_name, wav_name, text, index_folder]]. *)
Record WorkItem := {
  spk_name : string;
  wav_name : string;
  text : string;
  index_folder : string;
}.

(** The speech tokens of one file: [speech_token.flatten().tolist()]. *)
Abbreviation Tokens := (list Z).

(** An element of a result list: [(wav_path, speech_token)]. *)
Abbreviation ResultRecord := (string * Tokens)%type.

(** A message of the shared results queue: a result list or the sentinel. *)
Abbreviation ResultMsg := (option (list ResultRecord)).

(** The numeric collaborators.  [load_and_preprocess_audio] is lines 64-71
    (torchaudio, resampling, trimming and whisper's log-mel spectrogram),
    [session_run gpu_id feat feat_length] is the flattened first output of
    the ONNX session that [create_inference_session gpu_id] builds. *)
Class Collaborators := {
  Feat : Type;
  load_and_preprocess_audio : string → Z → Feat * nat;
  session_run : nat → Feat → nat → Tokens;
}.

Definition dataset_dir : string := "./dataset".

(** The path both [producer] (line 76) and [process_gpu] (line 103) build
    for an item. *)
Definition wav_path_of (item : WorkItem) : string :=
  Py.path_join dataset_dir [index_folder item; wav_name item].

(** *** [async_process]: sharding (lines 136-139) *)

(** The list of per-GPU shards.  [len(data) // num_gpus] raises when there
    is no GPU. *)
Definition data_batches {A} (data : list A) (num_gpus : nat)
  : Py.error + list (list A) :=
  if decide (num_gpus = 0) then inl Py.ZeroDivisionError
  else
    let batch_size := length data / num_gpus in
    let data_batches :=
      (λ i, Py.slice data (i * batch_size) ((i + 1) * batch_size))
        <$> seq 0 num_gpus in
    if decide (length data mod num_gpus ≠ 0)
    then Py.extend_last data_batches
           (Py.slice_from data (num_gpus * batch_size))
    else inr data_batches.

Section Pipeline.
Context `{Collaborators}.

(** A message of a device queue: [(feat, feat_length, item)]. *)
Definition FeatureRecord : Type := Feat * nat * WorkItem.

(** *** [producer] (lines 73-79) *)

(** What one round of the loop puts on the queue. *)
Definition feature_record (item : WorkItem) : FeatureRecord :=
  let wav_path := wav_path_of item in
  let '(feat, feat_length) := load_and_preprocess_audio wav_path 16000%Z in
  (feat, feat_length, item).

(** The device queue after the producer has run to its end. *)
Definition producer (data_queue : list (option FeatureRecord))
    (data : list WorkItem) : list (option FeatureRecord) :=
  let data_queue :=
    foldl (λ q item, q ++ [Some (feature_record item)]) data_queue data in
  data_queue ++ [None].

(** *** [process_gpu] (lines 81-115) *)

(** How control left the [for] loop of lines 86-94 with a batch. *)
Inductive leave :=
  | RangeExhausted   (* all [batch_size] rounds ran *)
  | SentinelBreak.   (* the [break] of line 90 *)

(** The ways a run of the [for] loop ends.  [data_queue.get()] on a queue
    that is empty and stays so never returns: that is [Starved]. *)
Inductive accumulated :=
  | LeftFor (how : leave) (batch : list FeatureRecord)
         (data_queue : list (option FeatureRecord))
  | ReturnedAt93 (data_queue : list (option FeatureRecord))
  | Starved (batch : list FeatureRecord).

(** Lines 86-94, [rounds] rounds of the loop from the batch collected so
    far. *)
Fixpoint accumulate (rounds : nat) (batch : list FeatureRecord)
    (data_queue : list (option FeatureRecord)) : accumulated :=
  match rounds with
  | 0 => LeftFor RangeExhausted batch data_queue
  | S rounds =>
      match data_queue with
      | [] => Starved batch
      | None :: data_queue =>
          match batch with
          | [] => ReturnedAt93 data_queue
          | _ :: _ => LeftFor SentinelBreak batch data_queue
          end
      | Some item :: data_queue =>
          accumulate rounds (batch ++ [item]) data_queue
      end
  end.

(** Lines 100-112: the result list of one batch. *)
Definition infer (gpu_id : nat) (batch : list FeatureRecord)
  : list ResultRecord :=
  (λ '(feat, feat_length, item),
     (wav_path_of item, session_run gpu_id feat feat_length)) <$> batch.

(** What [process_gpu] does that others can see, tagged with the line that
    does it. *)
Inductive gpu_event :=
  | Batch (how : leave) (batch : list FeatureRecord)   (* line 113 *)
  | Sentinel92                                           (* line 92 *)
  | Sentinel115.                                         (* line 115 *)

Inductive gpu_ending :=
  | Returned         (* [return] of line 93, or the end of the function *)
  | Blocked (batch : list FeatureRecord)
                     (* inside [data_queue.get()] for ever, holding [batch] *)
  | OutOfFuel.

Record gpu_run := {
  events : list gpu_event;
  ending : gpu_ending;
}.

Definition after (e : gpu_event) (r : gpu_run) : gpu_run :=
  {| events := e :: events r; ending := ending r |}.

(** The [while True] loop of lines 84-114 followed by line 115; one unit of
    fuel per round of the [while]. *)
Fixpoint process_gpu_loop (fuel : nat) (batch_size : nat)
    (data_queue : list (option FeatureRecord)) : gpu_run :=
  match fuel with
  | 0 => {| events := []; ending := OutOfFuel |}
  | S fuel =>
      match accumulate batch_size [] data_queue with
      | Starved batch => {| events := []; ending := Blocked batch |}
      | ReturnedAt93 _ => {| events := [Sentinel92]; ending := Returned |}
      | LeftFor _ [] _ => {| events := [Sentinel115]; ending := Returned |}
      | LeftFor how batch data_queue =>
          after (Batch how batch) (process_gpu_loop fuel batch_size data_queue)
      end
  end.

(** The function with its batch size as a parameter; a round that goes on
    has taken a message, so one unit of fuel per message and one more is
    enough. *)
Definition process_gpu_with (batch_size : nat)
    (data_queue : list (option FeatureRecord)) : gpu_run :=
  process_gpu_loop (S (length data_queue)) batch_size data_queue.

Definition batch_size : nat := 256.

Definition process_gpu (data_queue : list (option FeatureRecord)) : gpu_run :=
  process_gpu_with batch_size data_queue.

(** The message an event puts on the shared results queue. *)
Definition put_of (gpu_id : nat) (e : gpu_event) : ResultMsg :=
  match e with
  | Batch _ batch => Some (infer gpu_id batch)
  | Sentinel92 | Sentinel115 => None
  end.

(** The messages one GPU process puts on the results queue, in order. *)
Definition puts (gpu_id : nat) (r : gpu_run) : list ResultMsg :=
  put_of gpu_id <$> events r.

(** The batches a run has sent to the session, in order. *)
Definition batches_of (es : list gpu_event) : list (list FeatureRecord) :=
  omap (λ e, match e with Batch _ batch => Some batch | _ => None end) es.

(** A run that starts with the events [es] and goes on as [r]. *)
Definition after_all (es : list gpu_event) (r : gpu_run) : gpu_run :=
  foldr after r es.

End Pipeline.

(** The first [n] consecutive blocks of [size] elements of a list: the
    yardstick for the batches of [process_gpu]. *)
Fixpoint chunks {A} (n size : nat) (l : list A) : list (list A) :=
  match n with
  | 0 => []
  | S n => take size l :: chunks n size (drop size l)
  end.

(** *** [consumer] (lines 117-130) *)

Record sink := {
  processed_items : nat;
  disk : gmap string Tokens;         (* the files written so far *)
  saved : list (string * Tokens);    (* the calls of [np.save], in order *)
}.

(** Lines 125-127, one round of the [for] loop. *)
Definition save_result (st : sink) (r : ResultRecord) : sink :=
  let '(wav_path, speech_token) := r in
  let speech_token_path := wav_path +:+ ".npy" in
  {| processed_items := processed_items st + 1;
     disk := Py.np_save (disk st) speech_token_path speech_token;
     saved := saved st ++ [(speech_token_path, speech_token)] |}.

Inductive sink_ending :=
  | SinkReturned (st : sink) (unread : list ResultMsg)
  | SinkBlocked (st : sink).

(** The [while] loop of lines 120-128 over the messages the results queue
    delivers; [result_queue.get()] on a queue that is empty and stays so
    never returns. *)
Fixpoint consumer_loop (result_queue : list ResultMsg) (total_items : nat)
    (st : sink) : sink_ending :=
  match result_queue with
  | [] =>
      if decide (processed_items st < total_items) then SinkBlocked st
      else SinkReturned st []
  | results :: rest =>
      if decide (processed_items st < total_items) then
        match results with
        | None => consumer_loop rest total_items st
        | Some results =>
            consumer_loop rest total_items (foldl save_result st results)
        end
      else SinkReturned st result_queue
  end.

Definition consumer (disk0 : gmap string Tokens)
    (result_queue : list ResultMsg) (total_items : nat) : sink_ending :=
  consumer_loop result_queue total_items
    {| processed_items := 0; disk := disk0; saved := [] |}.

(** *** Label-file discovery (lines 168-193) *)

Inductive encoding := utf_8 | gbk | gb2312 | utf_16.

(** Line 176. *)
Definition encodings : list encoding := [utf_8; gbk; gb2312; utf_16].

(** What lines 179-180 do with one encoding: they read the lines, or the
    decoder raises [UnicodeDecodeError], which line 182 catches, or some
    other exception is raised, which nothing catches.  The decoder that a
    text file gets for utf-16 raises [UnicodeError], the parent class of
    [UnicodeDecodeError], when the bytes it decodes do not start with a
    byte order mark. *)
Inductive attempt :=
  | Decoded (lines : list string)
  | UnicodeDecodeError
  | UnicodeError.

(** The file system as the walk sees it.  [readlines file_path encoding] is
    lines 179-180; [relpath] is [os.path.relpath]. *)
Class LabelFiles := {
  readlines : string → encoding → attempt;
  relpath : string → string → string;
}.

(** How the loop of lines 177-186 is left. *)
Inductive decoding :=
  | Lines (lines : list string)     (* the [break] of line 181 *)
  | NoEncoding                      (* the [else] of line 184 *)
  | Propagates.                     (* an exception that is not caught *)

(** What the walk builds: the work list, and what it prints. *)
Record discovery := {
  todo : list WorkItem;
  stdout : list string;
}.

Section Discovery.
Context `{LabelFiles}.

(** The [for ... else] of lines 177-186. *)
Fixpoint try_encodings (file_path : string) (encodings : list encoding)
  : decoding :=
  match encodings with
  | [] => NoEncoding
  | encoding :: encodings =>
      match readlines file_path encoding with
      | Decoded lines => Lines lines
      | UnicodeDecodeError => try_encodings file_path encodings
      | UnicodeError => Propagates
      end
  end.

(** Lines 189-193: unpacking anything but three fields raises, and the
    handler prints the line. *)
Definition scan_line (index_folder : string) (st : discovery) (line : string)
  : discovery :=
  match Py.split "|"%char line with
  | [spk_name; wav_name; text] =>
      {| todo := todo st ++ [Build_WorkItem spk_name wav_name text index_folder];
         stdout := stdout st |}
  | _ => {| todo := todo st; stdout := stdout st ++ [line] |}
  end.

(** The message of line 185. *)
Definition cannot_decode (file_path : string) : string :=
  "无法解码文件 " +:+ file_path +:+ "，跳过此文件".

(** The walk goes on with a state, or the script has died of an
    exception, having built and printed what the state holds. *)
Inductive scanned :=
  | Scanned (st : discovery)
  | Died (st : discovery).

(** Lines 171-193 for one file name of a directory. *)
Definition scan_file (root : string) (st : discovery) (file : string)
  : scanned :=
  if Py.endswith file ".txt" then
    let index_folder := relpath root dataset_dir in
    let file_path := Py.path_join root [file] in
    match try_encodings file_path encodings with
    | NoEncoding =>
        Scanned {| todo := todo st;
                   stdout := stdout st ++ [cannot_decode file_path] |}
    | Lines lines => Scanned (foldl (scan_line index_folder) st lines)
    | Propagates => Died st
    end
  else Scanned st.

(** The loop of line 170 over the files of one directory. *)
Fixpoint scan_files (root : string) (st : discovery) (files : list string)
  : scanned :=
  match files with
  | [] => Scanned st
  | file :: files =>
      match scan_file root st file with
      | Scanned st => scan_files root st files
      | Died st => Died st
      end
  end.

(** The loop of line 169 over the [(root, files)] pairs that [os.walk]
    yields. *)
Fixpoint discover_from (st : discovery) (walk : list (string * list string))
  : scanned :=
  match walk with
  | [] => Scanned st
  | (root, files) :: walk =>
      match scan_files root st files with
      | Scanned st => discover_from st walk
      | Died st => Died st
      end
  end.

(** Lines 168-193. *)
Definition discover (walk : list (string * list string)) : scanned :=
  discover_from {| todo := []; stdout := [] |} walk.

End Discovery.

(** *** The processes together *)

(** The results a sequence of messages carries, sentinels dropped. *)
Definition results_of (result_queue : list ResultMsg) : list ResultRecord :=
  concat (omap id result_queue).

(** What [np.save] is called with for a result. *)
Definition artifact (r : ResultRecord) : string * Tokens :=
  (r.1 +:+ ".npy", r.2).

(** The orders in which one queue can deliver what several processes put
    on it: each process's messages stay in its own order. *)
Inductive interleaving {A} : list (list A) → list A → Prop :=
  | interleaving_done streams :
      Forall (λ s, s = []) streams → interleaving streams []
  | interleaving_next streams i x s merged :
      streams !! i = Some (x :: s) →
      interleaving (<[i := s]> streams) merged →
      interleaving streams (x :: merged).

(** What GPU process [gpu_id] puts on the results queue when its producer
    works through [shard] (lines 145-155: a fresh queue per pair). *)
Definition device_puts `{Collaborators} (gpu_id : nat) (shard : list WorkItem)
  : list ResultMsg :=
  puts gpu_id (process_gpu (producer [] shard)).

(** *** One device, step by step *)

(** The producer and the GPU process of a device run side by side over the
    device queue.  A state holds where each of them is, what the queue
    holds at that moment, and what the GPU process has done so far. *)
Section Interleaved.
Context `{Collaborators}.

(** The producer is in its loop with items left to load, or has put its
    sentinel and is over. *)
Inductive producer_pc :=
  | Putting (remaining : list WorkItem)
  | ProducerDone.

(** The GPU process is about to call [data_queue.get()] on line 87, with
    [rounds] rounds of the [for] loop still to run (this one included) and
    [batch] collected, or it has returned. *)
Inductive gpu_pc :=
  | AtGet (rounds : nat) (batch : list FeatureRecord)
  | GpuDone.

Record device := {
  prod : producer_pc;
  queue : list (option FeatureRecord);
  gpu : gpu_pc;
  out : list gpu_event;
}.

(** Lines 88-115 from the moment [get] returns [msg], with [rounds] rounds
    left after this one, up to the next [get] or the [return]. *)
Definition on_get (rounds : nat) (batch : list FeatureRecord)
    (msg : option FeatureRecord) : gpu_pc * list gpu_event :=
  match msg with
  | None =>
      match batch with
      | [] => (GpuDone, [Sentinel92])
      | _ :: _ => (AtGet batch_size [], [Batch SentinelBreak batch])
      end
  | Some item =>
      match rounds with
      | 0 => (AtGet batch_size [], [Batch RangeExhausted (batch ++ [item])])
      | S _ => (AtGet rounds (batch ++ [item]), [])
      end
  end.

(** A step of one of the two processes.  [put] never waits; [get] needs a
    message in the queue. *)
Inductive step : device → device → Prop :=
  | step_put item remaining q pc es :
      step {| prod := Putting (item :: remaining); queue := q;
              gpu := pc; out := es |}
           {| prod := Putting remaining;
              queue := q ++ [Some (feature_record item)];
              gpu := pc; out := es |}
  | step_put_sentinel q pc es :
      step {| prod := Putting []; queue := q; gpu := pc; out := es |}
           {| prod := ProducerDone; queue := q ++ [None];
              gpu := pc; out := es |}
  | step_get p msg q rounds batch es :
      step {| prod := p; queue := msg :: q;
              gpu := AtGet (S rounds) batch; out := es |}
           {| prod := p; queue := q;
              gpu := (on_get rounds batch msg).1;
              out := es ++ (on_get rounds batch msg).2 |}.

(** Lines 146-155: a fresh queue, the producer before its first item and
    the GPU process before its first [get]. *)
Definition start (shard : list WorkItem) : device :=
  {| prod := Putting shard; queue := []; gpu := AtGet batch_size [];
     out := [] |}.

(** What the producer will still put on the queue. *)
Definition pending (p : producer_pc) : list (option FeatureRecord) :=
  match p with
  | Putting remaining => (Some <$> (feature_record <$> remaining)) ++ [None]
  | ProducerDone => []
  end.

(** The rest of the run of [process_gpu] from a point of control, over
    the messages still to come. *)
Definition resume (pc : gpu_pc) (data_queue : list (option FeatureRecord))
  : gpu_run :=
  match pc with
  | GpuDone => {| events := []; ending := Returned |}
  | AtGet rounds batch =>
      match accumulate rounds batch data_queue with
      | Starved batch => {| events := []; ending := Blocked batch |}
      | ReturnedAt93 _ => {| events := [Sentinel92]; ending := Returned |}
      | LeftFor _ [] _ => {| events := [Sentinel115]; ending := Returned |}
      | LeftFor how batch rest =>
          after (Batch how batch) (process_gpu rest)
      end
  end.

(** The number of steps a device still has before it: two per message to
    come, one per message in the queue. *)
Definition steps_left (s : device) : nat :=
  2 * length (pending (prod s)) + length (queue s).

(** What holds all along a run from [start shard]: the events so far,
    followed by the rest of the run over the messages in the queue and
    those to come, are the run of [process_gpu] over the producer's
    queue; and the rounds left and the batch add up to the batch size. *)
Definition on_course (shard : list WorkItem) (s : device) : Prop :=
  after_all (out s) (resume (gpu s) (queue s ++ pending (prod s)))
  = process_gpu (producer [] shard)
  ∧ match gpu s with
    | AtGet rounds batch => 0 < rounds ∧ rounds + length batch = batch_size
    | GpuDone => True
    end.

(** The state in which a device deadlocks: the producer is over, the
    queue is empty, and the GPU process is at the first [get] of a new
    batch, having done all that the run of [process_gpu] does. *)
Definition deadlocked (shard : list WorkItem) : device :=
  {| prod := ProducerDone; queue := [];
     gpu := AtGet batch_size [];
     out := events (process_gpu (producer [] shard)) |}.

End Interleaved.

(** The batch in hand when a run ends inside [get]. *)
Definition in_hand `{Collaborators} (r : gpu_run) : list FeatureRecord :=
  match ending r with
  | Blocked batch => batch
  | Returned | OutOfFuel => []
  end.

(** The tokens GPU [gpu_id] computes for an item: lines 77 and 104-111
    one after the other. *)
Definition tokens_of `{Collaborators} (gpu_id : nat) (item : WorkItem)
  : Tokens :=
  let '(feat, feat_length) :=
    load_and_preprocess_audio (wav_path_of item) 16000%Z in
  session_run gpu_id feat feat_length.

(** *** [async_process] as a whole (lines 132-164) *)

(** The disk after a sequence of calls of [np.save], the first one first. *)
Definition written (disk0 : gmap string Tokens)
    (saves : list (string * Tokens)) : gmap string Tokens :=
  foldl (λ d save, <[save.1 := save.2]> d) disk0 saves.

(** The state in which the sink returned, or in which it waits. *)
Definition sink_state (e : sink_ending) : sink :=
  match e with
  | SinkReturned st _ | SinkBlocked st => st
  end.

(** The ways [async_process] ends: the division of line 136 raises, every
    [join] of lines 161-162 returns, or some [join] waits for ever on a
    process that does not end. *)
Inductive orchestration :=
  | Raises (e : Py.error)
  | Finishes (st : sink)
  | Hangs.

(** Whether a GPU process came to its end. *)
Definition returned `{Collaborators} (r : gpu_run) : bool :=
  match ending r with
  | Returned => true
  | Blocked _ | OutOfFuel => false
  end.

(** [async_process data] with [num_gpus] devices, when the results queue
    delivers its messages in the order [result_queue].  The producers
    always end; the loop of lines 161-162 gets past every [join] when
    every GPU process and the sink end. *)
Definition async_process `{Collaborators} (disk0 : gmap string Tokens)
    (data : list WorkItem) (num_gpus : nat) (result_queue : list ResultMsg)
  : orchestration :=
  match data_batches data num_gpus with
  | inl e => Raises e
  | inr data_batches =>
      let gpu_processes :=
        (λ shard, process_gpu (producer [] shard)) <$> data_batches in
      match consumer disk0 result_queue (length data) with
      | SinkReturned st _ =>
          if forallb returned gpu_processes then Finishes st else Hangs
      | SinkBlocked _ => Hangs
      end
  end.

(** *** Strings, for the statements about [split] *)

(** The number of occurrences of a character. *)
Fixpoint str_count (c : Ascii.ascii) (s : string) : nat :=
  match s with
  | EmptyString => 0
  | String c' s' => (if Ascii.eqb c' c then 1 else 0) + str_count c s'
  end.

(** [sep.join(fields)] for a one-character separator. *)
Fixpoint str_join (sep : Ascii.ascii) (fields : list string) : string :=
  match fields with
  | [] => EmptyString
  | [field] => field
  | field :: fields => field +:+ String sep (str_join sep fields)
  end.

(** The line of a label file that gives an item: its three fields with
    bars between them. *)
Definition item_line (item : WorkItem) : string :=
  spk_name item +:+ "|" +:+ wav_name item +:+ "|" +:+ text item.

(** *** [torch_trim] and [postprocess] (lines 26-62) *)

(** The floating-point side of the two functions, on one channel of
    samples.  [frame_masks speech top_db frame_length hop_length] is lines
    28-43: one flag per frame of the short-time Fourier transform, set when
    the energy of the frame is above the threshold.  [too_loud] is the test
    of line 59, [rescale speech] the division and product of line 60,
    [padding target_sr] is [int(target_sr * 0.2)]. *)
Class Signal := {
  Sample : Type;
  zero : Sample;
  frame_masks : list Sample → nat → nat → nat → list bool;
  too_loud : list Sample → bool;
  rescale : list Sample → Sample → Sample;
  padding : Z → nat;
}.

(** [torch.where(masks)[0]]: the positions of the flags that are set,
    counted from [i]. *)
Fixpoint where_true (i : nat) (masks : list bool) : list nat :=
  match masks with
  | [] => []
  | mask :: masks =>
      if mask then i :: where_true (S i) masks else where_true (S i) masks
  end.

(** Lines 47-50: the first and the last sample to keep, [None] when no
    frame is above the threshold. *)
Definition trim_bounds (masks : list bool) (samples hop_length : nat)
  : option (Z * Z) :=
  let valid_frames := where_true 0 masks in
  match valid_frames with
  | [] => None
  | first :: _ =>
      let last_valid := default first (last valid_frames) in
      let start_frame := Z.max 0 (Z.of_nat first - 1) in
      let end_frame :=
        Z.min (Z.of_nat (length masks) - 1) (Z.of_nat last_valid + 1) in
      let start_sample := (start_frame * Z.of_nat hop_length)%Z in
      let end_sample :=
        Z.min (Z.of_nat samples) ((end_frame + 1) * Z.of_nat hop_length) in
      Some (start_sample, end_sample)
  end.

(** Lines 26-53.  Both bounds are non-negative (see [trim_bounds_nat]),
    so the slice of line 51 counts from the start of the signal. *)
Definition torch_trim `{Signal} (speech : list Sample)
    (top_db frame_length hop_length : nat) : list Sample :=
  let masks := frame_masks speech top_db frame_length hop_length in
  match trim_bounds masks (length speech) hop_length with
  | Some (start_sample, end_sample) =>
      Py.slice speech (Z.to_nat start_sample) (Z.to_nat end_sample)
  | None => speech
  end.

(** Lines 55-62. *)
Definition postprocess `{Signal} (speech : list Sample) (target_sr : Z)
    (top_db hop_length win_length : nat) : list Sample :=
  let speech := torch_trim speech top_db win_length hop_length in
  let speech :=
    if too_loud speech then rescale speech <$> speech else speech in
  speech ++ replicate (padding target_sr) zero.

(** *** A concrete instance, for examples *)

Module Fixture.

(** Features are the path itself and tokens are small numbers. *)
Definition demo : Collaborators := {|
  Feat := string;
  load_and_preprocess_audio wav_path _ := (wav_path, String.length wav_path);
  session_run gpu_id _ feat_length := [Z.of_nat gpu_id; Z.of_nat feat_length];
|}.

Definition utterance (n : nat) : WorkItem := {|
  spk_name := "spk";
  wav_name := "utt" +:+ pretty n +:+ ".wav";
  text := "hello";
  index_folder := "book";
|}.

(** A shard of [n] distinct utterances. *)
Definition utterances (n : nat) : list WorkItem := utterance <$> seq 0 n.

(** A dataset with three label files.  [a.txt] only decodes from the
    second encoding on.  [b.txt] holds the bytes [FF FE 41]: a byte order
    mark and half a character, so that every decoder raises
    [UnicodeDecodeError].  [c.txt] holds the bytes [80 80]: the first
    three decoders raise [UnicodeDecodeError], and the utf-16 decoder,
    finding no byte order mark, raises [UnicodeError]. *)
Definition label_files : LabelFiles := {|
  readlines file_path encoding :=
    if String.eqb file_path "./dataset/book/a.txt" then
      match encoding with
      | utf_8 => UnicodeDecodeError
      | _ => Decoded ["spk|u1.wav|hello"; "no bars here"; "spk|u2.wav|a|b"]
      end
    else if String.eqb file_path "./dataset/book/c.txt" then
      match encoding with
      | utf_16 => UnicodeError
      | _ => UnicodeDecodeError
      end
    else UnicodeDecodeError;
  relpath _ _ := "book";
|}.

(** Integer samples, for examples.  As [torch.stft] does by default, the
    signal is extended by [frame_length / 2] mirrored samples at each end,
    and frame [f] is the [frame_length] samples of the extended signal from
    [f * hop_length] on, so the samples around sample [f * hop_length] of
    the signal; the Hann window is zero on the first of them.  Here a frame
    is flagged when one of its other samples is not zero. *)
Definition signal : Signal := {|
  Sample := Z;
  zero := 0%Z;
  frame_masks speech _ frame_length hop_length :=
    let pad := frame_length / 2 in
    let samples := length speech in
    let padded :=
      reverse (Py.slice speech 1 (pad + 1)) ++ speech
      ++ reverse (Py.slice speech (samples - 1 - pad) (samples - 1)) in
    (λ f, existsb (λ x, negb (x =? 0)%Z)
            (Py.slice padded (f * hop_length + 1)
               (f * hop_length + frame_length)))
      <$> seq 0 (1 + (samples + 2 * pad - frame_length) / hop_length);
  too_loud speech := existsb (λ x, (8 <? Z.abs x)%Z) speech;
  rescale _ x := (x / 2)%Z;
  padding target_sr := Z.to_nat (target_sr / 5);
|}.

End Fixture.

(** ** Part II: properties *)

(** *** Sharding *)

Section ShardingFacts.
Context {A : Type}.
Implicit Types (data : list A) (bs n i : nat).

(** The comprehension of line 137 alone takes the first [n * bs] items. *)
Lemma slice_step data i bs :
  Py.slice data (i * bs) ((i + 1) * bs) = take bs (drop (i * bs) data).
Proof. unfold Py.slice. f_equal. lia. Qed.

Lemma slices_snoc data bs n :
  (λ i, Py.slice data (i * bs) ((i + 1) * bs)) <$> seq 0 (S n)
  = ((λ i, Py.slice data (i * bs) ((i + 1) * bs)) <$> seq 0 n)
    ++ [take bs (drop (n * bs) data)].
Proof. rewrite seq_S, fmap_app. simpl. by rewrite slice_step. Qed.

Lemma slices_concat data bs n :
  concat ((λ i, Py.slice data (i * bs) ((i + 1) * bs)) <$> seq 0 n)
  = take (n * bs) data.
Proof.
  induction n as [|n IH].
  - by rewrite take_0.
  - rewrite slices_snoc, concat_app, IH. simpl. rewrite app_nil_r.
    rewrite take_take_drop. f_equal. lia.
Qed.

Lemma slices_lookup data bs n i :
  i < n →
  ((λ i, Py.slice data (i * bs) ((i + 1) * bs)) <$> seq 0 n) !! i
  = Some (take bs (drop (i * bs) data)).
Proof.
  intros Hi. rewrite list_lookup_fmap, lookup_seq_lt by done.
  simpl. by rewrite slice_step.
Qed.

Lemma slice_is_full data bs n i :
  i < n → n * bs ≤ length data →
  length (take bs (drop (i * bs) data)) = bs.
Proof.
  intros Hi Hn. rewrite length_take, length_drop.
  assert ((i + 1) * bs ≤ n * bs) by (apply Nat.mul_le_mono_r; lia).
  lia.
Qed.

Lemma extend_last_snoc (ls : list (list A)) (b ext : list A) :
  Py.extend_last (ls ++ [b]) ext = inr (ls ++ [b ++ ext]).
Proof.
  unfold Py.extend_last. destruct (ls ++ [b]) eqn:E.
  - by destruct ls.
  - rewrite <- E. f_equal. rewrite length_app. simpl.
    replace (length ls + 1 - 1) with (length ls + 0) by lia.
    by rewrite alter_app_r.
Qed.

(** What [data_batches] returns for [D + 1] GPUs, in closed form: [D]
    slices of the comprehension, then the last slice with the remainder. *)
Lemma data_batches_closed data (D : nat) :
  let bs := length data / S D in
  data_batches data (S D)
  = inr (((λ i, Py.slice data (i * bs) ((i + 1) * bs)) <$> seq 0 D)
         ++ [take bs (drop (D * bs) data) ++
             if decide (length data mod S D ≠ 0)
             then drop (S D * bs) data else []]).
Proof.
  intros bs. unfold data_batches.
  rewrite decide_False by lia. fold bs.
  rewrite slices_snoc. unfold Py.slice_from.
  case_decide.
  - apply extend_last_snoc.
  - by rewrite app_nil_r.
Qed.

Lemma div_mod_split (n d : nat) :
  d ≠ 0 → d * (n / d) ≤ n ∧ n - d * (n / d) = n mod d.
Proof. intros Hd. pose proof (Nat.div_mod n d Hd). lia. Qed.

(** Sharding neither drops, nor repeats, nor reorders. *)
Lemma data_batches_concat data (D : nat) shards :
  data_batches data D = inr shards → concat shards = data.
Proof.
  destruct D as [|D]; [done|].
  pose proof (data_batches_closed data D) as Hclosed. cbv zeta in Hclosed.
  destruct (div_mod_split (length data) (S D)) as [Hle Hmod]; [lia|].
  remember (length data / S D) as bs eqn:Hbs.
  remember (length data mod S D) as r eqn:Hr.
  rewrite Hclosed. intros Hshards. apply (inj inr) in Hshards as <-.
  rewrite concat_app, slices_concat.
  cbn [concat]. rewrite app_nil_r.
  case_decide as Hrem.
  - rewrite app_assoc, take_take_drop.
    replace (D * bs + bs) with (S D * bs) by lia.
    apply take_drop.
  - rewrite app_nil_r, take_take_drop. apply take_ge. lia.
Qed.

Lemma data_batches_length data (D : nat) shards :
  data_batches data D = inr shards → length shards = D.
Proof.
  destruct D as [|D]; [done|].
  rewrite data_batches_closed. intros [= <-].
  rewrite length_app, length_fmap, length_seq. simpl. lia.
Qed.

(** C2. For a work list of [N] items and [D >= 1] devices, sharding
    succeeds with [D] shards whose concatenation is the work list itself
    (every item once, in the original order); every shard but the last has
    [N / D] items and the last one has [N / D + N mod D]. *)
Theorem data_batches_partition data (D : nat) :
  1 ≤ D →
  ∃ shards : list (list A),
    data_batches data D = inr shards
    ∧ length shards = D
    ∧ concat shards = data
    ∧ (∀ i shard, i < D - 1 → shards !! i = Some shard →
         length shard = length data / D)
    ∧ (∃ shard, last shards = Some shard
         ∧ length shard = length data / D + length data mod D).
Proof.
  intros HD. destruct D as [|D]; [lia|].
  pose proof (data_batches_closed data D) as Hclosed. cbv zeta in Hclosed.
  destruct (div_mod_split (length data) (S D)) as [Hle Hmod]; [lia|].
  remember (length data / S D) as bs eqn:Hbs.
  remember (length data mod S D) as r eqn:Hr.
  assert (Hfull : ∀ i, i < S D → length (take bs (drop (i * bs) data)) = bs)
    by (intros i Hi; apply (slice_is_full data bs (S D)); lia).
  eexists. split; [exact Hclosed|].
  split; [by eapply data_batches_length|].
  split; [by eapply data_batches_concat|]. split.
  - intros i shard Hi Hlook.
    rewrite lookup_app_l in Hlook
      by (rewrite length_fmap, length_seq; lia).
    rewrite slices_lookup in Hlook by lia. injection Hlook as <-.
    apply Hfull. lia.
  - eexists. split; [apply last_snoc|].
    rewrite length_app, Hfull by lia.
    case_decide as Hrem; [rewrite length_drop|cbn [length]]; lia.
Qed.

End ShardingFacts.

Lemma data_batches_partition_witness :
  1 ≤ 3 ∧
  ∃ shards : list (list nat),
    data_batches [10; 11; 12; 13; 14; 15; 16; 17] 3 = inr shards
    ∧ length shards = 3
    ∧ concat shards = [10; 11; 12; 13; 14; 15; 16; 17]
    ∧ (∀ i shard, i < 3 - 1 → shards !! i = Some shard →
         length shard = length [10; 11; 12; 13; 14; 15; 16; 17] / 3)
    ∧ (∃ shard, last shards = Some shard
         ∧ length shard = length [10; 11; 12; 13; 14; 15; 16; 17] / 3
                          + length [10; 11; 12; 13; 14; 15; 16; 17] mod 3).
Proof.
  split; [lia|].
  apply (data_batches_partition [10; 11; 12; 13; 14; 15; 16; 17] 3). lia.
Defined.

(** C8, as the code has it.  Without a device the division of line 136
    raises; with at least one device and fewer items than devices nothing
    raises: the quotient is zero, the slices of line 137 are empty, and
    line 139 hands the whole work list to the last shard. *)
Theorem data_batches_degenerate {A} (data : list A) (D : nat) :
  (D = 0 → data_batches data D = inl Py.ZeroDivisionError)
  ∧ (1 ≤ D → length data < D →
       data_batches data D = inr (replicate (D - 1) [] ++ [data])).
Proof.
  split.
  - intros ->. done.
  - intros HD Hlt. destruct D as [|D]; [lia|].
    rewrite data_batches_closed.
    rewrite (Nat.div_small (length data) (S D)) by lia.
    rewrite (Nat.mod_small (length data) (S D)) by lia.
    replace (S D - 1) with D by lia.
    do 2 f_equal.
    + clear. induction D as [|D IH]; [done|].
      rewrite slices_snoc, IH. simpl.
      change ([] :: replicate D []) with (replicate (S D) (@nil A)).
      by rewrite replicate_S_end.
    + rewrite !Nat.mul_0_r, drop_0. simpl. f_equal.
      case_decide as Hempty; [done|].
      destruct data; [done|]. simpl in Hempty. lia.
Qed.

Lemma data_batches_degenerate_witness :
  (0 = 0 → data_batches [7] 0 = inl Py.ZeroDivisionError)
  ∧ (1 ≤ 3 → length [7] < 3 →
       data_batches [7] 3 = inr (replicate (3 - 1) [] ++ [[7]])).
Proof.
  split.
  - apply (data_batches_degenerate [7] 0).
  - apply (data_batches_degenerate [7] 3).
Defined.

(** C8, as the specification states it, fails: two devices and one work
    item shard without an error. *)
Lemma sharding_outnumbered_counterexample :
  length [7] < 2
  ∧ data_batches [7] 2 = inr [[]; [7]]
  ∧ ¬ ∃ e, data_batches [7] 2 = inl e.
Proof.
  split; [simpl; lia|]. split; [reflexivity|].
  intros [e He]. discriminate He.
Qed.

(** *** Blocks of a list *)

Section ChunkFacts.
Context {A : Type}.
Implicit Types (l : list A) (n size : nat).

Lemma chunks_length n size l : length (chunks n size l) = n.
Proof. revert l. induction n as [|n IH]; intros l; simpl; [done|]. by rewrite IH. Qed.

Lemma chunks_concat n size l :
  concat (chunks n size l) = take (n * size) l.
Proof.
  revert l. induction n as [|n IH]; intros l; simpl.
  - by rewrite take_0.
  - by rewrite IH, take_take_drop.
Qed.

Lemma chunks_full n size l :
  n * size ≤ length l → Forall (λ c, length c = size) (chunks n size l).
Proof.
  revert l. induction n as [|n IH]; intros l Hlen; simpl; [constructor|].
  simpl in Hlen. constructor.
  - rewrite length_take. lia.
  - apply IH. rewrite length_drop. lia.
Qed.

End ChunkFacts.

(** *** The producer *)

Section DeviceFacts.
Context `{Collaborators}.
Implicit Types (data shard : list WorkItem) (item : WorkItem).
Implicit Types (q rest data_queue : list (option FeatureRecord)).
Implicit Types (batch items : list FeatureRecord).

Lemma feature_record_item item : (feature_record item).2 = item.
Proof. unfold feature_record. by destruct load_and_preprocess_audio. Qed.

Lemma feature_records_items data : snd <$> (feature_record <$> data) = data.
Proof.
  induction data as [|item data IH]; [done|].
  rewrite !fmap_cons, IH. by rewrite feature_record_item.
Qed.

(** The queue the producer leaves behind. *)
Lemma producer_queue data_queue data :
  producer data_queue data
  = data_queue ++ (Some <$> (feature_record <$> data)) ++ [None].
Proof.
  unfold producer. rewrite app_assoc. f_equal.
  revert data_queue. induction data as [|item data IH]; intros q; simpl.
  - by rewrite app_nil_r.
  - rewrite IH, <- app_assoc. done.
Qed.

(** *** The [for] loop of [process_gpu] *)

(** With [length items] rounds to spare, [items] at the head of the queue
    all go into the batch. *)
Lemma accumulate_items items : ∀ k batch rest,
  accumulate (length items + k) batch ((Some <$> items) ++ rest)
  = accumulate k (batch ++ items) rest.
Proof.
  induction items as [|x items IH]; intros k batch rest; simpl.
  - by rewrite app_nil_r.
  - rewrite IH, <- app_assoc. done.
Qed.

(** Every way of leaving the loop with a batch, read backwards. *)
Lemma accumulate_left rounds : ∀ batch q how b rest,
  accumulate rounds batch q = LeftFor how b rest →
  ∃ items, b = batch ++ items ∧
    ((how = RangeExhausted ∧ length items = rounds
        ∧ q = (Some <$> items) ++ rest)
     ∨ (how = SentinelBreak ∧ length items < rounds ∧ b ≠ []
        ∧ q = (Some <$> items) ++ None :: rest)).
Proof.
  induction rounds as [|rounds IH]; intros batch q how b rest Hacc;
    simpl in Hacc.
  - injection Hacc as <- <- <-. exists []. rewrite app_nil_r. eauto.
  - destruct q as [|[item|] q]; [done| |].
    + apply IH in Hacc as (items & -> & Hcase).
      exists (item :: items). rewrite <- app_assoc. split; [done|].
      destruct Hcase as [(-> & <- & ->)|(-> & Hlt & Hne & ->)].
      * left. done.
      * right. rewrite <- app_assoc in Hne. simpl. repeat split; try done. lia.
    + destruct batch as [|x batch]; [done|].
      injection Hacc as <- <- <-. exists []. rewrite app_nil_r.
      split; [done|]. right. repeat split; try done. simpl. lia.
Qed.

(** A [return] from inside the loop happens on a sentinel at the head of
    the queue, and only with an empty batch. *)
Lemma accumulate_returned rounds : ∀ batch q rest,
  accumulate rounds batch q = ReturnedAt93 rest →
  batch = [] ∧ q = None :: rest.
Proof.
  induction rounds as [|rounds IH]; intros batch q rest Hacc;
    simpl in Hacc; [done|].
  destruct q as [|[item|] q]; [done| |].
  - apply IH in Hacc as [Hnil _]. by destruct batch.
  - destruct batch; [|done]. by injection Hacc as <-.
Qed.

(** The loop starves exactly when the queue holds fewer items than rounds
    and no sentinel. *)
Lemma accumulate_starved rounds : ∀ batch q b,
  accumulate rounds batch q = Starved b →
  ∃ items, b = batch ++ items ∧ length items < rounds ∧ q = Some <$> items.
Proof.
  induction rounds as [|rounds IH]; intros batch q b Hacc;
    simpl in Hacc; [done|].
  destruct q as [|[item|] q].
  - injection Hacc as <-. exists []. rewrite app_nil_r. simpl.
    repeat split; lia || done.
  - apply IH in Hacc as (items & -> & Hlt & ->).
    exists (item :: items). rewrite <- app_assoc. simpl.
    repeat split; lia || done.
  - by destruct batch.
Qed.

(** *** The [while] loop of [process_gpu] *)

Lemma events_after_all (es : list gpu_event) (r : gpu_run) :
  events (after_all es r) = es ++ events r.
Proof. induction es as [|e es IH]; simpl; [done|]. by rewrite IH. Qed.

Lemma ending_after_all (es : list gpu_event) (r : gpu_run) :
  ending (after_all es r) = ending r.
Proof. induction es as [|e es IH]; simpl; done. Qed.

(** A round that goes on has taken at least one message. *)
Lemma accumulate_left_shorter bs q how x b rest :
  accumulate bs [] q = LeftFor how (x :: b) rest → length rest < length q.
Proof.
  intros Hacc. apply accumulate_left in Hacc as (items & Hb & Hcase).
  simpl in Hb. subst items.
  destruct Hcase as [(_ & _ & ->)|(_ & _ & _ & ->)];
    rewrite length_app, length_fmap; simpl; lia.
Qed.

(** More fuel than messages is always enough fuel. *)
Lemma process_gpu_loop_fuel bs : ∀ fuel fuel' q,
  length q < fuel → length q < fuel' →
  process_gpu_loop fuel bs q = process_gpu_loop fuel' bs q.
Proof.
  induction fuel as [|fuel IH]; intros fuel' q Hf Hf'; [lia|].
  destruct fuel' as [|fuel']; [lia|]. simpl.
  destruct (accumulate bs [] q) as [how [|x b] rest| |] eqn:Hacc; try done.
  apply accumulate_left_shorter in Hacc.
  f_equal. apply IH; lia.
Qed.

(** The loop without its fuel: one round of the [while]. *)
Lemma process_gpu_with_unfold bs q :
  process_gpu_with bs q
  = match accumulate bs [] q with
    | Starved batch => {| events := []; ending := Blocked batch |}
    | ReturnedAt93 _ => {| events := [Sentinel92]; ending := Returned |}
    | LeftFor _ [] _ => {| events := [Sentinel115]; ending := Returned |}
    | LeftFor how batch rest =>
        after (Batch how batch) (process_gpu_with bs rest)
    end.
Proof.
  unfold process_gpu_with at 1. simpl.
  destruct (accumulate bs [] q) as [how [|x b] rest| |] eqn:Hacc; try done.
  apply accumulate_left_shorter in Hacc.
  f_equal. unfold process_gpu_with. apply process_gpu_loop_fuel; lia.
Qed.

(** The loop never runs out of the fuel [process_gpu_with] gives it. *)
Lemma process_gpu_with_total bs q : ending (process_gpu_with bs q) ≠ OutOfFuel.
Proof.
  induction q as [q IH] using (induction_ltof1 _ length).
  rewrite process_gpu_with_unfold.
  destruct (accumulate bs [] q) as [how [|x b] rest| |] eqn:Hacc; try done.
  apply accumulate_left_shorter in Hacc. simpl. by apply IH.
Qed.

(** The four cases of a round, for a positive batch size. *)
Lemma process_gpu_with_full bs items rest :
  0 < bs → length items = bs →
  process_gpu_with bs ((Some <$> items) ++ rest)
  = after (Batch RangeExhausted items) (process_gpu_with bs rest).
Proof.
  intros Hbs Hlen. rewrite process_gpu_with_unfold.
  replace bs with (length items + 0) at 1 by lia.
  rewrite accumulate_items. simpl.
  destruct items; [simpl in Hlen; lia|done].
Qed.

Lemma process_gpu_with_partial bs items rest :
  items ≠ [] → length items < bs →
  process_gpu_with bs ((Some <$> items) ++ None :: rest)
  = after (Batch SentinelBreak items) (process_gpu_with bs rest).
Proof.
  intros Hne Hlen. rewrite process_gpu_with_unfold.
  replace bs with (length items + S (bs - length items - 1)) at 1 by lia.
  rewrite accumulate_items. simpl.
  destruct items; done.
Qed.

Lemma process_gpu_with_sentinel bs rest :
  0 < bs →
  process_gpu_with bs (None :: rest)
  = {| events := [Sentinel92]; ending := Returned |}.
Proof.
  intros Hbs. rewrite process_gpu_with_unfold.
  destruct bs; [lia|done].
Qed.

Lemma process_gpu_with_drained bs :
  0 < bs →
  process_gpu_with bs [] = {| events := []; ending := Blocked [] |}.
Proof. intros Hbs. destruct bs; [lia|done]. Qed.

(** [n] full batches at the head of the queue are [n] rounds. *)
Lemma process_gpu_with_chunks bs n : 0 < bs → ∀ items rest,
  n * bs ≤ length items →
  process_gpu_with bs ((Some <$> items) ++ rest)
  = after_all (Batch RangeExhausted <$> chunks n bs items)
      (process_gpu_with bs ((Some <$> drop (n * bs) items) ++ rest)).
Proof.
  intros Hbs. induction n as [|n IH]; intros items rest Hlen; simpl.
  - by rewrite drop_0.
  - simpl in Hlen.
    rewrite <- (take_drop bs items) at 1. rewrite fmap_app, <- app_assoc.
    rewrite process_gpu_with_full by (rewrite ?length_take; lia).
    rewrite IH by (rewrite length_drop; lia).
    by rewrite drop_drop.
Qed.

(** The whole run over what a producer leaves for [recs]: the full batches,
    then either the sentinel on an empty batch, or the remainder as a last
    batch and a [get] that never returns. *)
Lemma process_gpu_with_shard bs (recs : list FeatureRecord) :
  0 < bs →
  process_gpu_with bs ((Some <$> recs) ++ [None])
  = after_all (Batch RangeExhausted <$> chunks (length recs / bs) bs recs)
      (if decide (length recs mod bs = 0)
       then {| events := [Sentinel92]; ending := Returned |}
       else after (Batch SentinelBreak (drop (length recs / bs * bs) recs))
                  {| events := []; ending := Blocked [] |}).
Proof.
  intros Hbs.
  destruct (div_mod_split (length recs) bs) as [Hle Hmod]; [lia|].
  rewrite (process_gpu_with_chunks bs (length recs / bs)) by lia.
  f_equal. case_decide as Hrem.
  - rewrite drop_ge by lia. simpl. by apply process_gpu_with_sentinel.
  - pose proof (Nat.mod_upper_bound (length recs) bs).
    rewrite process_gpu_with_partial.
    + by rewrite process_gpu_with_drained.
    + intros Hnil%(f_equal length). rewrite length_drop in Hnil.
      simpl in Hnil. lia.
    + rewrite length_drop. lia.
Qed.

(** The events and the ending of the run of [process_gpu_with] behind a
    producer. *)
Lemma device_events bs shard :
  0 < bs →
  let recs := feature_record <$> shard in
  events (process_gpu_with bs (producer [] shard))
  = (Batch RangeExhausted <$> chunks (length shard / bs) bs recs)
    ++ (if decide (length shard mod bs = 0) then [Sentinel92]
        else [Batch SentinelBreak (drop (length shard / bs * bs) recs)]).
Proof.
  intros Hbs recs. rewrite producer_queue. simpl.
  rewrite process_gpu_with_shard, events_after_all by done.
  unfold recs. rewrite !length_fmap. by case_decide.
Qed.

Lemma device_ending bs shard :
  0 < bs →
  ending (process_gpu_with bs (producer [] shard))
  = if decide (length shard mod bs = 0) then Returned else Blocked [].
Proof.
  intros Hbs. rewrite producer_queue. simpl.
  rewrite process_gpu_with_shard, ending_after_all by done.
  rewrite !length_fmap. by case_decide.
Qed.

Lemma batches_of_full (cs : list (list FeatureRecord)) how :
  batches_of (Batch how <$> cs) = cs.
Proof.
  induction cs as [|c cs IH]; [done|].
  unfold batches_of in *. simpl. by f_equal.
Qed.

Lemma batches_of_app (es es' : list gpu_event) :
  batches_of (es ++ es') = batches_of es ++ batches_of es'.
Proof. apply omap_app. Qed.

(** Behind a producer every record goes through the session, in order. *)
Lemma device_batches bs shard :
  0 < bs →
  concat (batches_of (events (process_gpu_with bs (producer [] shard))))
  = feature_record <$> shard.
Proof.
  intros Hbs. rewrite device_events by done.
  destruct (div_mod_split (length shard) bs) as [Hle Hmod]; [lia|].
  rewrite batches_of_app, batches_of_full, concat_app, chunks_concat.
  case_decide as Hrem; simpl; rewrite ?app_nil_r.
  - apply take_ge. rewrite length_fmap. lia.
  - apply take_drop.
Qed.

(** With a positive batch size the loop of lines 86-94 is never left with
    an empty batch. *)
Lemma accumulate_nonempty bs q how b rest :
  0 < bs → accumulate bs [] q = LeftFor how b rest → b ≠ [].
Proof.
  intros Hbs Hacc. apply accumulate_left in Hacc as (items & -> & Hcase).
  destruct Hcase as [(_ & Hlen & _)|(_ & _ & Hne & _)]; [|done].
  destruct items; [simpl in Hlen; lia|done].
Qed.

Lemma accumulate_bounded bs q how b rest :
  accumulate bs [] q = LeftFor how b rest →
  length b ≤ bs ∧ length q ≤ length rest + bs.
Proof.
  intros Hacc. apply accumulate_left in Hacc as (items & -> & Hcase).
  destruct Hcase as [(_ & Hlen & ->)|(_ & Hlen & _ & ->)];
    simpl; rewrite length_app, length_fmap; simpl; lia.
Qed.

(** Line 115 is never reached, whatever the queue delivers. *)
Lemma process_gpu_loop_no_fall_through bs : 0 < bs → ∀ fuel q,
  Sentinel115 ∉ events (process_gpu_loop fuel bs q).
Proof.
  intros Hbs. induction fuel as [|fuel IH]; intros q; simpl.
  - apply not_elem_of_nil.
  - destruct (accumulate bs [] q) as [how [|x b] rest| |] eqn:Hacc; simpl.
    + by apply accumulate_nonempty in Hacc.
    + apply not_elem_of_cons. split; [done|apply IH].
    + apply not_elem_of_cons. split; [done|apply not_elem_of_nil].
    + apply not_elem_of_nil.
Qed.

(** The batches of any run hold between one and [bs] records. *)
Lemma process_gpu_loop_batch_sizes bs : 0 < bs → ∀ fuel q how batch,
  Batch how batch ∈ events (process_gpu_loop fuel bs q) →
  0 < length batch ≤ bs.
Proof.
  intros Hbs. induction fuel as [|fuel IH]; intros q how batch; simpl.
  - by intros ?%elem_of_nil.
  - destruct (accumulate bs [] q) as [how' [|x b] rest| |] eqn:Hacc; simpl.
    + intros [?|?%elem_of_nil]%elem_of_cons; done.
    + intros [[= -> ->]|Hin]%elem_of_cons; [|by eapply IH].
      apply accumulate_bounded in Hacc. simpl in *. lia.
    + intros [?|?%elem_of_nil]%elem_of_cons; done.
    + by intros ?%elem_of_nil.
Qed.

(** C5. The producer appends to its device queue one record per work item
    of the shard, in the order of the shard, then a single sentinel, and
    is done; each record carries its work item.  On the fresh queue that
    [async_process] hands to the pair, the records that the GPU process
    takes into its batches are those of the shard, in order. *)
Theorem producer_order data_queue shard :
  producer data_queue shard
  = data_queue ++ (Some <$> (feature_record <$> shard)) ++ [None]
  ∧ snd <$> (feature_record <$> shard) = shard
  ∧ concat (batches_of (events (process_gpu (producer [] shard))))
    = feature_record <$> shard.
Proof.
  split; [apply producer_queue|]. split; [apply feature_records_items|].
  apply device_batches. unfold batch_size. lia.
Qed.

(** C3. One round of batch assembly, for any content of the device queue:
    a batch takes at most [batch_size = 256] messages and holds at most as
    many records.  A sentinel met with a non-empty batch closes the batch:
    the results of its records, one per record, are put on the results
    queue as one list, and the loop goes on.  A sentinel met with an empty
    batch makes the function put one sentinel, and nothing else, on the
    results queue and return, leaving the rest of the device queue
    unread.  [batch_size] records without a sentinel are a full batch:
    their results are put on the results queue as one list, and the loop
    goes on. *)
Theorem batch_assembly (gpu_id : nat) data_queue :
  batch_size = 256
  ∧ (∀ how batch rest,
       accumulate batch_size [] data_queue = LeftFor how batch rest →
       length batch ≤ batch_size
       ∧ length data_queue ≤ length rest + batch_size)
  ∧ (∀ how batch, Batch how batch ∈ events (process_gpu data_queue) →
       0 < length batch ≤ batch_size)
  ∧ (∀ items rest,
       items ≠ [] → length items < batch_size →
       data_queue = (Some <$> items) ++ None :: rest →
       process_gpu data_queue
       = after (Batch SentinelBreak items) (process_gpu rest)
       ∧ puts gpu_id (process_gpu data_queue)
         = Some (infer gpu_id items) :: puts gpu_id (process_gpu rest)
       ∧ length (infer gpu_id items) = length items)
  ∧ (∀ rest,
       data_queue = None :: rest →
       process_gpu data_queue
       = {| events := [Sentinel92]; ending := Returned |}
       ∧ puts gpu_id (process_gpu data_queue) = [None])
  ∧ (∀ items rest,
       length items = batch_size →
       data_queue = (Some <$> items) ++ rest →
       process_gpu data_queue
       = after (Batch RangeExhausted items) (process_gpu rest)
       ∧ puts gpu_id (process_gpu data_queue)
         = Some (infer gpu_id items) :: puts gpu_id (process_gpu rest)
       ∧ length (infer gpu_id items) = length items).
Proof.
  assert (Hbs : 0 < batch_size) by (unfold batch_size; lia).
  split; [done|]. split; [|split; [|split; [|split]]].
  - intros how batch rest. apply accumulate_bounded.
  - intros how batch. by apply process_gpu_loop_batch_sizes.
  - intros items rest Hne Hlen ->. unfold process_gpu, infer.
    rewrite process_gpu_with_partial by done.
    by rewrite length_fmap.
  - intros rest ->. unfold process_gpu.
    by rewrite process_gpu_with_sentinel.
  - intros items rest Hlen ->. unfold process_gpu, infer.
    rewrite process_gpu_with_full by done.
    by rewrite length_fmap.
Qed.

(** C4. Behind the producer of a shard of [size] items, the GPU process
    runs exactly [size / batch_size] batches of [batch_size] records, each
    closed by the end of the [for] loop.  When [size mod batch_size] is
    positive one more batch follows, closed by the sentinel, with
    [size mod batch_size] records; when it is zero no such batch exists,
    and the sentinel is met with an empty batch: the function puts its
    sentinel (line 92) and returns. *)
Theorem batching_boundary shard :
  let size := length shard in
  let run := process_gpu (producer [] shard) in
  ∃ full : list (list FeatureRecord),
    length full = size / batch_size
    ∧ Forall (λ batch, length batch = batch_size) full
    ∧ (0 < size mod batch_size →
         ∃ partial,
           length partial = size mod batch_size
           ∧ events run
             = (Batch RangeExhausted <$> full) ++ [Batch SentinelBreak partial]
           ∧ concat full ++ partial = feature_record <$> shard)
    ∧ (size mod batch_size = 0 →
         events run = (Batch RangeExhausted <$> full) ++ [Sentinel92]
         ∧ ending run = Returned
         ∧ concat full = feature_record <$> shard).
Proof.
  intros size run.
  assert (Hbs : 0 < batch_size) by (unfold batch_size; lia).
  destruct (div_mod_split size batch_size) as [Hle Hmod]; [lia|].
  pose proof (device_events batch_size shard Hbs) as Hev.
  pose proof (device_ending batch_size shard Hbs) as Hend.
  cbv zeta in Hev. fold size in Hev, Hend.
  exists (chunks (size / batch_size) batch_size (feature_record <$> shard)).
  split; [apply chunks_length|].
  split; [apply chunks_full; rewrite length_fmap; fold size; lia|].
  split.
  - intros Hpos. rewrite decide_False in Hev by lia.
    eexists. split; [|split; [exact Hev|]].
    + rewrite length_drop, length_fmap. fold size. lia.
    + rewrite chunks_concat. apply take_drop.
  - intros Hzero.
    rewrite decide_True in Hev by done. rewrite decide_True in Hend by done.
    split; [done|]. split; [done|].
    rewrite chunks_concat. apply take_ge. rewrite length_fmap. fold size. lia.
Qed.

(** The run behind a shard that is not a multiple of the batch size: its
    events are batches only, the last one closed by the sentinel, and its
    end is a [get] with an empty batch. *)
Lemma device_deadlock bs shard :
  0 < bs → length shard mod bs ≠ 0 →
  let run := process_gpu_with bs (producer [] shard) in
  (∃ earlier partial,
     events run = earlier ++ [Batch SentinelBreak partial] ∧ partial ≠ [])
  ∧ ending run = Blocked []
  ∧ (∀ e, e ∈ events run → ∃ how batch, e = Batch how batch).
Proof.
  intros Hbs Hrem run.
  destruct (div_mod_split (length shard) bs) as [Hle Hmod]; [lia|].
  pose proof (device_events bs shard Hbs) as Hev.
  pose proof (device_ending bs shard Hbs) as Hend.
  cbv zeta in Hev. fold run in Hev, Hend.
  rewrite decide_False in Hev by done. rewrite decide_False in Hend by done.
  split; [|split; [done|]].
  - do 2 eexists. split; [exact Hev|].
    intros Hnil%(f_equal length).
    rewrite length_drop, length_fmap in Hnil. cbn [length] in Hnil. lia.
  - intros e. rewrite Hev.
    intros [(c & -> & _)%list_elem_of_fmap|Hlast%list_elem_of_singleton]%elem_of_app;
      subst; eauto.
Qed.

(** C10. Whatever the device queue delivers, the [for] loop is never left
    with an empty batch, so neither the [break] of line 97 nor the
    sentinel of line 115 is ever executed: the run has no [Sentinel115],
    and every sentinel that reaches the results queue is that of line 92,
    put when the sentinel of the device queue meets an empty batch. *)
Theorem trailing_sentinel_unreachable (gpu_id : nat) data_queue :
  (∀ how batch rest,
     accumulate batch_size [] data_queue = LeftFor how batch rest →
     batch ≠ [])
  ∧ (Sentinel115 ∉ events (process_gpu data_queue))
  ∧ (∀ e, e ∈ events (process_gpu data_queue) →
       put_of gpu_id e = None → e = Sentinel92)
  ∧ ending (process_gpu data_queue) ≠ OutOfFuel.
Proof.
  assert (Hbs : 0 < batch_size) by (unfold batch_size; lia).
  assert (Hno : Sentinel115 ∉ events (process_gpu data_queue))
    by (by apply process_gpu_loop_no_fall_through).
  split; [|split; [done|split]].
  - intros how batch rest. by apply accumulate_nonempty.
  - intros [how batch| |] Hin Hput; done.
  - apply process_gpu_with_total.
Qed.

End DeviceFacts.

(** *** One device, step by step *)

Section InterleavedFacts.
Context `{Collaborators}.
Implicit Types (s : device) (shard : list WorkItem).

(** Every step uses up one unit of [steps_left]: no run of a device goes
    on for ever. *)
Lemma step_steps_left s s' : step s s' → steps_left s = S (steps_left s').
Proof.
  destruct 1; unfold steps_left; simpl;
    rewrite ?length_app, ?length_fmap; simpl; lia.
Qed.

Lemma nsteps_steps_left n s s' :
  nsteps step n s s' → steps_left s = n + steps_left s'.
Proof.
  induction 1 as [|n s s1 s' Hstep _ IH]; [done|].
  apply step_steps_left in Hstep. lia.
Qed.

(** At the head of a round of the [while], the rest of the run is the
    whole function. *)
Lemma resume_start q : resume (AtGet batch_size []) q = process_gpu q.
Proof. unfold process_gpu. by rewrite process_gpu_with_unfold. Qed.

(** One [get] of the step semantics is one round of [accumulate]. *)
Lemma resume_get rounds batch msg q :
  resume (AtGet (S rounds) batch) (msg :: q)
  = after_all (on_get rounds batch msg).2
              (resume (on_get rounds batch msg).1 q).
Proof.
  destruct msg as [item|]; [destruct rounds as [|rounds]|destruct batch];
    cbn [on_get fst snd after_all foldr]; rewrite ?resume_start;
    unfold resume; cbn [accumulate]; try done.
  by destruct batch.
Qed.

Lemma on_course_start shard : on_course shard (start shard).
Proof.
  split; cbn [start prod queue gpu out after_all foldr pending app].
  - by rewrite resume_start, producer_queue.
  - unfold batch_size. cbn [length]. lia.
Qed.

Lemma on_course_step shard s s' :
  on_course shard s → step s s' → on_course shard s'.
Proof.
  unfold on_course. intros [Hrun Hrounds] Hstep.
  destruct Hstep; cbn [prod queue gpu out pending] in *.
  - split; [|done]. rewrite <- Hrun, !fmap_cons. by rewrite <- !app_assoc.
  - split; [|done]. rewrite <- Hrun. by rewrite app_nil_r.
  - split.
    + rewrite <- Hrun, <- app_comm_cons, resume_get.
      unfold after_all. by rewrite foldr_app.
    + destruct msg as [item|]; [destruct rounds as [|rounds]|destruct batch];
        cbn [on_get fst]; rewrite ?length_app; cbn [length];
        try done; unfold batch_size in *; lia.
Qed.

Lemma on_course_reachable shard s :
  rtc step (start shard) s → on_course shard s.
Proof.
  revert s. apply rtc_ind_r.
  - apply on_course_start.
  - intros s s' _ Hstep Hcourse. by eapply on_course_step.
Qed.

(** Along the way the events so far are the first events of the whole
    run, and the end that awaits is its end. *)
Lemma on_course_events shard s :
  on_course shard s →
  events (process_gpu (producer [] shard))
  = out s ++ events (resume (gpu s) (queue s ++ pending (prod s)))
  ∧ ending (process_gpu (producer [] shard))
    = ending (resume (gpu s) (queue s ++ pending (prod s))).
Proof.
  intros [<- _]. by rewrite events_after_all, ending_after_all.
Qed.

(** The step semantics and the function agree: when no step is left,
    the GPU process has done what the run of [process_gpu] over the
    producer's queue says, and is where that run ends. *)
Lemma run_adequate shard s :
  rtc step (start shard) s → nf step s →
  out s = events (process_gpu (producer [] shard))
  ∧ match ending (process_gpu (producer [] shard)) with
    | Returned => gpu s = GpuDone
    | Blocked batch => ∃ rounds, gpu s = AtGet rounds batch
    | OutOfFuel => False
    end.
Proof.
  intros Hcourse%on_course_reachable Hstuck.
  destruct (on_course_events shard s Hcourse) as [-> ->].
  destruct Hcourse as [_ Hrounds].
  destruct s as [[[|item remaining]|] q pc es]; cbn [prod queue gpu out] in *.
  - destruct Hstuck. eexists. apply step_put_sentinel.
  - destruct Hstuck. eexists. apply step_put.
  - destruct pc as [[|rounds] batch|]; [lia| |].
    + destruct q as [|msg q].
      * cbn. rewrite app_nil_r. eauto.
      * destruct Hstuck. eexists. apply step_get.
    + cbn. by rewrite app_nil_r.
Qed.

Lemma deadlocked_stuck shard : nf step (deadlocked shard).
Proof. intros [s' Hstep]. inversion Hstep. Qed.

(** When the shard is not a multiple of the batch size, a device on
    course is deadlocked or can take a step. *)
Lemma deadlock_progress shard s :
  length shard mod batch_size ≠ 0 →
  on_course shard s → s = deadlocked shard ∨ red step s.
Proof.
  intros Hrem Hcourse.
  assert (Hbs : 0 < batch_size) by (unfold batch_size; lia).
  destruct (device_deadlock batch_size shard Hbs Hrem) as (_ & Hend & _).
  fold (process_gpu (producer [] shard)) in Hend.
  destruct (on_course_events shard s Hcourse) as [Hevents Hending].
  destruct Hcourse as [_ Hrounds]. rewrite Hend in Hending.
  destruct s as [[[|item remaining]|] q pc es]; cbn [prod queue gpu out] in *.
  - right. eexists. apply step_put_sentinel.
  - right. eexists. apply step_put.
  - destruct pc as [[|rounds] batch|]; [lia| |done].
    destruct q as [|msg q].
    + left. cbn in Hending, Hevents. injection Hending as <-.
      rewrite app_nil_r in Hevents. cbn [length] in Hrounds.
      unfold deadlocked. f_equal; [|done]. f_equal. lia.
    + right. eexists. apply step_get.
Qed.

(** Every run of such a device ends up deadlocked. *)
Lemma deadlock_reached shard :
  length shard mod batch_size ≠ 0 →
  ∀ n s, steps_left s = n → on_course shard s →
         rtc step s (deadlocked shard).
Proof.
  intros Hrem. induction n as [|n IH]; intros s Hleft Hcourse;
    (destruct (deadlock_progress shard s Hrem Hcourse) as [->|[s' Hstep]];
     [done|]);
    pose proof (step_steps_left s s' Hstep) as Hdec; [lia|].
  eapply rtc_l; [exact Hstep|].
  apply IH; [lia|]. by eapply on_course_step.
Qed.

(** C1. When the size of the shard is not a multiple of [batch_size], the
    last thing the GPU process does is to process the non-empty batch that
    the sentinel of the device queue closed; its run ends in a [get] with
    an empty batch that never returns, and no sentinel is among the
    messages it puts on the results queue.  Step by step, whatever the
    interleaving of the producer and the GPU process: the GPU process
    never returns and never puts a sentinel, every run is over after
    [2 * (size + 1)] steps at most, and from every state the device
    reaches the state where the producer is over, the queue is empty and
    the GPU process waits at the first [get] of a new batch, in which no
    step is possible any more. *)
Theorem partial_batch_deadlock (gpu_id : nat) shard :
  length shard mod batch_size ≠ 0 →
  let run := process_gpu (producer [] shard) in
  (∃ earlier partial,
     events run = earlier ++ [Batch SentinelBreak partial] ∧ partial ≠ [])
  ∧ ending run = Blocked []
  ∧ (None ∉ puts gpu_id run)
  ∧ nf step (deadlocked shard)
  ∧ ∀ n s, nsteps step n (start shard) s →
      gpu s ≠ GpuDone
      ∧ (Sentinel92 ∉ out s) ∧ (Sentinel115 ∉ out s)
      ∧ (None ∉ put_of gpu_id <$> out s)
      ∧ n ≤ 2 * (length shard + 1)
      ∧ rtc step s (deadlocked shard).
Proof.
  intros Hrem run.
  assert (Hbs : 0 < batch_size) by (unfold batch_size; lia).
  destruct (device_deadlock batch_size shard Hbs Hrem) as (Hlast & Hend & Hev).
  fold (process_gpu (producer [] shard)) in Hlast, Hend, Hev. fold run in Hev.
  split; [done|]. split; [done|]. split; [|split; [apply deadlocked_stuck|]].
  { unfold puts. by intros (e & Hput & (how & batch & ->)%Hev)%list_elem_of_fmap. }
  intros n s Hsteps.
  pose proof (nsteps_steps_left _ _ _ Hsteps) as Hleft.
  assert (Hcourse : on_course shard s)
    by (apply on_course_reachable; by eapply rtc_nsteps_2).
  destruct (on_course_events shard s Hcourse) as [Hevents Hending].
  fold run in Hevents.
  assert (Hout : ∀ e, e ∈ out s → ∃ how batch, e = Batch how batch).
  { intros e He. apply Hev. rewrite Hevents. apply elem_of_app. by left. }
  split; [|split; [|split; [|split; [|split]]]].
  - intros Hdone. rewrite Hdone, Hend in Hending. done.
  - by intros (how & batch & [=])%Hout.
  - by intros (how & batch & [=])%Hout.
  - by intros (e & Hput & (how & batch & ->)%Hout)%list_elem_of_fmap.
  - unfold steps_left in Hleft. cbn [start prod queue pending] in Hleft.
    rewrite length_app, !length_fmap in Hleft. cbn [length] in Hleft. lia.
  - by eapply deadlock_reached.
Qed.

End InterleavedFacts.

Section DeadlockScenario.
#[local] Existing Instance Fixture.demo.

Lemma partial_batch_deadlock_witness :
  length (Fixture.utterances 300) mod batch_size ≠ 0
  ∧ let shard := Fixture.utterances 300 in
    let run := process_gpu (producer [] shard) in
    (∃ earlier partial,
       events run = earlier ++ [Batch SentinelBreak partial] ∧ partial ≠ [])
    ∧ ending run = Blocked []
    ∧ (None ∉ puts 0 run)
    ∧ nf step (deadlocked shard)
    ∧ ∀ n s, nsteps step n (start shard) s →
        gpu s ≠ GpuDone
        ∧ (Sentinel92 ∉ out s) ∧ (Sentinel115 ∉ out s)
        ∧ (None ∉ put_of 0 <$> out s)
        ∧ n ≤ 2 * (length shard + 1)
        ∧ rtc step s (deadlocked shard).
Proof.
  assert (Hrem : length (Fixture.utterances 300) mod batch_size ≠ 0)
    by (vm_compute; lia).
  split; [exact Hrem|].
  exact (partial_batch_deadlock 0 (Fixture.utterances 300) Hrem).
Defined.

End DeadlockScenario.

(** The scenario of 300 utterances: one batch of 256, one of 44 closed by
    the sentinel, and a [get] that never returns. *)
Example deadlock_300 :
  let run := process_gpu (H := Fixture.demo) (producer [] (Fixture.utterances 300)) in
  (length <$> batches_of (events run)) = [256; 44]
  ∧ ending run = Blocked []
  ∧ puts 0 run = Some <$> (infer 0 <$> batches_of (events run)).
Proof. vm_compute. done. Qed.

(** *** Strings *)

Lemma length_append (s t : string) :
  String.length (s +:+ t) = String.length s + String.length t.
Proof. induction s as [|c s IH]; simpl; [done|]. by rewrite IH. Qed.

Lemma substring_all (t : string) : String.substring 0 (String.length t) t = t.
Proof. induction t as [|c t IH]; simpl; [done|]. by rewrite IH. Qed.

Lemma substring_suffix (s t : string) :
  String.substring (String.length s) (String.length t) (s +:+ t) = t.
Proof. induction s as [|c s IH]; simpl; [apply substring_all|done]. Qed.

Lemma endswith_append (s t : string) : Py.endswith (s +:+ t) t = true.
Proof.
  unfold Py.endswith. rewrite length_append.
  rewrite bool_decide_eq_true_2 by lia. simpl.
  replace (String.length s + String.length t - String.length t)
    with (String.length s) by lia.
  rewrite substring_suffix. apply String.eqb_refl.
Qed.

(** A name that carries the extension is saved under that very name. *)
Lemma np_save_npy {V} (disk : gmap string V) (file : string) (arr : V) :
  Py.np_save disk (file +:+ ".npy") arr = <[file +:+ ".npy" := arr]> disk.
Proof. unfold Py.np_save. by rewrite endswith_append. Qed.

(** Appending a slash-free suffix to a path only renames its last
    component. *)
Lemma split_append (sep : Ascii.ascii) (t : string) :
  Py.split sep t = [t] →
  ∀ p, ∃ dirs name,
    Py.split sep p = dirs ++ [name]
    ∧ Py.split sep (p +:+ t) = dirs ++ [name +:+ t].
Proof.
  intros Ht. induction p as [|c p (dirs & name & Hp & Hpt)].
  - exists [], EmptyString. split; [done|exact Ht].
  - simpl. destruct (Ascii.eqb c sep).
    + exists (EmptyString :: dirs), name. by rewrite Hp, Hpt.
    + rewrite Hp, Hpt. destruct dirs as [|d dirs]; simpl.
      * by exists [], (String c name).
      * by exists (String c d :: dirs), name.
Qed.

(** *** The result sink *)

Section SinkFacts.
Implicit Types (st : sink) (results : list ResultRecord).
Implicit Types (rq rest result_queue : list ResultMsg).
Implicit Types (d : gmap string Tokens) (l : list (string * Tokens)).

Lemma save_result_disk st wav_path speech_token :
  disk (save_result st (wav_path, speech_token))
  = <[wav_path +:+ ".npy" := speech_token]> (disk st).
Proof. simpl. apply np_save_npy. Qed.

(** The [for] loop of lines 124-128 over one result list. *)
Lemma save_results_processed results : ∀ st,
  processed_items (foldl save_result st results)
  = processed_items st + length results.
Proof.
  induction results as [|[p t] results IH]; intros st; simpl; [lia|].
  rewrite IH. simpl. lia.
Qed.

Lemma save_results_saved results : ∀ st,
  saved (foldl save_result st results) = saved st ++ (artifact <$> results).
Proof.
  induction results as [|[p t] results IH]; intros st; simpl.
  - by rewrite app_nil_r.
  - rewrite IH. simpl. by rewrite <- app_assoc.
Qed.

Lemma results_of_sentinel rq : results_of (None :: rq) = results_of rq.
Proof. done. Qed.

Lemma results_of_results results rq :
  results_of (Some results :: rq) = results ++ results_of rq.
Proof. done. Qed.

Lemma results_of_app rq rq' :
  results_of (rq ++ rq') = results_of rq ++ results_of rq'.
Proof. unfold results_of. by rewrite omap_app, concat_app. Qed.

(** When the queue still holds exactly the missing results, the loop
    saves them all and returns at once, wherever the sentinels are. *)
Lemma consumer_loop_completes total_items : ∀ rq st,
  processed_items st + length (results_of rq) = total_items →
  ∃ st' read unread,
    consumer_loop rq total_items st = SinkReturned st' unread
    ∧ rq = read ++ unread
    ∧ results_of unread = []
    ∧ processed_items st' = total_items
    ∧ saved st' = saved st ++ (artifact <$> results_of rq).
Proof.
  induction rq as [|msg rq IH]; intros st Hcount; simpl.
  - rewrite decide_False by (simpl in Hcount; lia).
    exists st, [], []. cbn in *. rewrite app_nil_r. repeat split; lia || done.
  - case_decide as Hlt.
    + destruct msg as [results|].
      * rewrite results_of_results, length_app in Hcount.
        destruct (IH (foldl save_result st results))
          as (st' & read & unread & Hrun & -> & Hunread & Hdone & Hsaved).
        { rewrite save_results_processed. lia. }
        exists st', (Some results :: read), unread.
        rewrite Hrun, Hsaved, save_results_saved, results_of_results.
        by rewrite fmap_app, app_assoc.
      * destruct (IH st)
          as (st' & read & unread & Hrun & -> & Hunread & Hdone & Hsaved);
          [done|].
        by exists st', (None :: read), unread.
    + assert (Hnone : length (results_of (msg :: rq)) = 0) by lia.
      apply nil_length_inv in Hnone.
      exists st, [], (msg :: rq). rewrite Hnone. simpl.
      rewrite app_nil_r. repeat split; lia || done.
Qed.

Lemma written_cons d save l :
  written d (save :: l) = written (<[save.1 := save.2]> d) l.
Proof. done. Qed.

Lemma written_app d l l' : written d (l ++ l') = written (written d l) l'.
Proof. apply foldl_app. Qed.

(** A path that is not saved keeps its content. *)
Lemma written_other l : ∀ d path,
  path ∉ l.*1 → written d l !! path = d !! path.
Proof.
  induction l as [|[k v] l IH]; intros d path Hnot; [done|].
  rewrite fmap_cons in Hnot. apply not_elem_of_cons in Hnot as [Hne Hnot].
  rewrite written_cons, IH by done. by apply lookup_insert_ne.
Qed.

(** The last save of a path decides its content. *)
Lemma written_last d before path tokens later :
  path ∉ later.*1 →
  written d (before ++ (path, tokens) :: later) !! path = Some tokens.
Proof.
  intros Hnot. rewrite written_app, written_cons, written_other by done.
  apply lookup_insert_eq.
Qed.

(** A saved path holds the tokens of one of its saves. *)
Lemma written_some l : ∀ d path,
  path ∈ l.*1 → ∃ tokens, (path, tokens) ∈ l ∧ written d l !! path = Some tokens.
Proof.
  induction l as [|[k v] l IH] using rev_ind; intros d path Hin.
  - by apply elem_of_nil in Hin.
  - destruct (decide (k = path)) as [->|Hne].
    + exists v. split; [apply elem_of_app; right; by left|].
      by apply written_last, not_elem_of_nil.
    + rewrite fmap_app in Hin. apply elem_of_app in Hin as [Hin|Hin].
      * destruct (IH d path Hin) as (tokens & Hmem & Hlook).
        exists tokens. split; [apply elem_of_app; by left|].
        rewrite written_app, written_cons. cbn [written foldl fst snd].
        by rewrite lookup_insert_ne.
      * apply list_elem_of_singleton in Hin. by destruct Hne.
Qed.

Lemma save_results_disk results : ∀ st,
  disk (foldl save_result st results)
  = written (disk st) (artifact <$> results).
Proof.
  induction results as [|[p t] results IH]; intros st; [done|].
  cbn [foldl]. rewrite IH, fmap_cons, written_cons.
  by rewrite save_result_disk.
Qed.

(** The whole run of the loop of lines 120-128, from any state and over
    any sequence of messages: what it reads, what it saves, where it
    stops. *)
Lemma consumer_loop_run total_items : ∀ rq st,
  ∃ read unread,
    rq = read ++ unread
    ∧ saved (sink_state (consumer_loop rq total_items st))
      = saved st ++ (artifact <$> results_of read)
    ∧ processed_items (sink_state (consumer_loop rq total_items st))
      = processed_items st + length (results_of read)
    ∧ disk (sink_state (consumer_loop rq total_items st))
      = written (disk st) (artifact <$> results_of read)
    ∧ (∀ read' msg, read = read' ++ [msg] →
         processed_items st + length (results_of read') < total_items)
    ∧ ((total_items ≤ processed_items st + length (results_of read)
        ∧ consumer_loop rq total_items st
          = SinkReturned (sink_state (consumer_loop rq total_items st)) unread)
       ∨ (processed_items st + length (results_of read) < total_items
          ∧ unread = []
          ∧ consumer_loop rq total_items st
            = SinkBlocked (sink_state (consumer_loop rq total_items st)))).
Proof.
  induction rq as [|msg rq IH]; intros st; cbn [consumer_loop].
  - exists [], []. case_decide; cbn; rewrite ?app_nil_r;
      (repeat split; try done; [by intros [] ?|]);
      [right|left]; repeat split; try done; lia.
  - case_decide as Hlt.
    + destruct msg as [results|].
      * destruct (IH (foldl save_result st results))
          as (read & unread & -> & Hsaved & Hcount & Hdisk & Hshort & Hend).
        exists (Some results :: read), unread.
        rewrite Hsaved, Hcount, Hdisk.
        rewrite save_results_saved, save_results_processed, save_results_disk.
        rewrite save_results_processed in Hshort, Hend.
        rewrite results_of_results, fmap_app, length_app, written_app.
        rewrite <- !app_assoc, !Nat.add_assoc.
        repeat split; try done.
        intros read' msg Hread. destruct read' as [|msg' read'].
        { cbn. lia. }
        injection Hread as <- ->. rewrite results_of_results, length_app.
        specialize (Hshort read' msg eq_refl). lia.
      * destruct (IH st)
          as (read & unread & -> & Hsaved & Hcount & Hdisk & Hshort & Hend).
        exists (None :: read), unread. rewrite results_of_sentinel.
        repeat split; try done.
        intros read' msg Hread. destruct read' as [|msg' read'].
        { cbn. lia. }
        injection Hread as <- ->. rewrite results_of_sentinel.
        by apply (Hshort read' msg).
    + exists [], (msg :: rq). cbn. rewrite !app_nil_r.
      repeat split; try done; [by intros [] ?|].
      left. split; [lia|done].
Qed.

(** When the queue delivers exactly [total_items] results, the sink
    returns with all of them saved. *)
Lemma consumer_all_results (disk0 : gmap string Tokens) rq total_items :
  length (results_of rq) = total_items →
  ∃ st unread,
    consumer disk0 rq total_items = SinkReturned st unread
    ∧ saved st = artifact <$> results_of rq
    ∧ disk st = written disk0 (saved st)
    ∧ processed_items st = total_items.
Proof.
  intros Hlen. unfold consumer.
  destruct (consumer_loop_run total_items rq
              {| processed_items := 0; disk := disk0; saved := [] |})
    as (read & unread & Hsplit & Hsaved & Hcount & Hdisk & _ & Hend).
  cbn [processed_items disk saved app] in *.
  assert (Hall : length (results_of rq)
                 = length (results_of read) + length (results_of unread))
    by (by rewrite Hsplit, results_of_app, length_app).
  destruct Hend as [[Hreached Hrun]|(Hless & -> & _)]; [|cbn in Hall; lia].
  assert (Hrest : results_of unread = []) by (apply nil_length_inv; lia).
  assert (Hread : results_of read = results_of rq)
    by (by rewrite Hsplit, results_of_app, Hrest, app_nil_r).
  rewrite Hread in *.
  eexists _, unread. split; [exact Hrun|].
  rewrite Hsaved, Hdisk, Hcount. repeat split. lia.
Qed.

(** C6. The sink starts from zero; while the count is below the total, a
    sentinel is dropped and a result list is saved record by record: each
    record is written to the disk under its path followed by [.npy], and
    the count goes up by one per record; once the count is the total the
    loop returns without another [get].  When the queue delivers the [N]
    results of the run, wherever the sentinels of the devices are among
    them and however many there are, the sink returns having written
    exactly those [N] records to the disk, in the order of the queue, and
    what it leaves unread holds no result. *)
Theorem result_sink (disk0 : gmap string Tokens) result_queue total_items :
  consumer disk0 result_queue 0
  = SinkReturned {| processed_items := 0; disk := disk0; saved := [] |}
                 result_queue
  ∧ (∀ st rest,
       processed_items st < total_items →
       consumer_loop (None :: rest) total_items st
       = consumer_loop rest total_items st)
  ∧ (∀ st wav_path speech_token,
       processed_items (save_result st (wav_path, speech_token))
       = processed_items st + 1
       ∧ disk (save_result st (wav_path, speech_token))
         = <[wav_path +:+ ".npy" := speech_token]> (disk st)
       ∧ disk (save_result st (wav_path, speech_token))
           !! (wav_path +:+ ".npy") = Some speech_token)
  ∧ (∀ st results rest,
       processed_items st < total_items →
       consumer_loop (Some results :: rest) total_items st
       = consumer_loop rest total_items (foldl save_result st results)
       ∧ processed_items (foldl save_result st results)
         = processed_items st + length results
       ∧ saved (foldl save_result st results)
         = saved st ++ (artifact <$> results)
       ∧ disk (foldl save_result st results)
         = written (disk st) (artifact <$> results))
  ∧ (∀ st rest,
       processed_items st = total_items →
       consumer_loop rest total_items st = SinkReturned st rest)
  ∧ (length (results_of result_queue) = total_items →
       ∃ st read unread,
         consumer disk0 result_queue total_items = SinkReturned st unread
         ∧ result_queue = read ++ unread
         ∧ results_of unread = []
         ∧ processed_items st = total_items
         ∧ length (saved st) = total_items
         ∧ saved st = artifact <$> results_of result_queue
         ∧ disk st = written disk0 (artifact <$> results_of result_queue)
         ∧ (∀ path, path ∈ (saved st).*1 →
              ∃ speech_token,
                (path, speech_token) ∈ saved st
                ∧ disk st !! path = Some speech_token)
         ∧ (∀ path, path ∉ (saved st).*1 → disk st !! path = disk0 !! path)).
Proof.
  split; [|split; [|split; [|split; [|split]]]].
  - unfold consumer. by destruct result_queue.
  - intros st rest Hlt. simpl. by rewrite decide_True.
  - intros st wav_path speech_token. rewrite save_result_disk.
    split; [done|]. split; [done|]. apply lookup_insert_eq.
  - intros st results rest Hlt. simpl. rewrite decide_True by done.
    split; [done|]. split; [|split].
    + apply save_results_processed.
    + apply save_results_saved.
    + apply save_results_disk.
  - intros st rest Hdone. destruct rest; simpl; by rewrite decide_False by lia.
  - intros Hcount.
    destruct (consumer_loop_completes total_items result_queue
                {| processed_items := 0; disk := disk0; saved := [] |})
      as (st & read & unread & Hrun & Hsplit & Hunread & Hdone & Hsaved);
      [done|].
    destruct (consumer_all_results disk0 result_queue total_items Hcount)
      as (st' & unread' & Hrun' & _ & Hdisk & _).
    unfold consumer in Hrun'. rewrite Hrun in Hrun'.
    injection Hrun' as <- <-.
    exists st, read, unread. simpl in Hsaved.
    split; [done|]. split; [done|]. split; [done|]. split; [done|].
    split; [by rewrite Hsaved, length_fmap|]. split; [done|].
    split; [by rewrite Hdisk, Hsaved|]. split.
    + intros path Hpath. rewrite Hdisk. by apply written_some.
    + intros path Hpath. rewrite Hdisk. by apply written_other.
Qed.

(** C9. A result is saved under the path of its audio file followed by
    [.npy]: the components of that name are those of the audio file's
    path, the last one with [.npy] appended, so the artifact lies in the
    directory of the audio file.  Saving replaces whatever the disk held
    under that name and touches no other file, so a second run leaves the
    tokens of the second run.  The path of a result is the one from which
    the producer loaded the audio. *)
Theorem artifact_beside_source `{Collaborators} (gpu_id : nat) st
    (item : WorkItem) (wav_path : string) (speech_token again : Tokens) :
  let speech_token_path := wav_path +:+ ".npy" in
  let st' := save_result st (wav_path, speech_token) in
  disk st' = <[speech_token_path := speech_token]> (disk st)
  ∧ disk st' !! speech_token_path = Some speech_token
  ∧ (∀ other, other ≠ speech_token_path → disk st' !! other = disk st !! other)
  ∧ saved st' = saved st ++ [(speech_token_path, speech_token)]
  ∧ disk (save_result st' (wav_path, again))
    = <[speech_token_path := again]> (disk st)
  ∧ (∃ dirs name,
       Py.split "/" wav_path = dirs ++ [name]
       ∧ Py.split "/" speech_token_path = dirs ++ [name +:+ ".npy"])
  ∧ infer gpu_id [feature_record item]
    = [(wav_path_of item,
        session_run gpu_id
          (load_and_preprocess_audio (wav_path_of item) 16000%Z).1
          (load_and_preprocess_audio (wav_path_of item) 16000%Z).2)].
Proof.
  intros speech_token_path st'. subst st'.
  rewrite !save_result_disk. fold speech_token_path.
  split; [done|]. split; [apply lookup_insert_eq|].
  split; [intros other Hother; by apply lookup_insert_ne|].
  split; [done|]. split; [apply insert_insert_eq|].
  split; [by apply split_append|].
  unfold infer, feature_record. simpl.
  by destruct (load_and_preprocess_audio (wav_path_of item) 16000%Z).
Qed.

End SinkFacts.

(** A result list that straddles the total is saved whole: the test of
    line 120 is made between two messages only.  No run of the pipeline
    delivers such a list, see [pipeline_results] below. *)
Example consumer_checks_between_messages :
  consumer ∅ [Some [("a.wav", [1%Z]); ("b.wav", [2%Z])]] 1
  = SinkReturned
      {| processed_items := 2;
         disk := <["b.wav.npy" := [2%Z]]> (<["a.wav.npy" := [1%Z]]> ∅);
         saved := [("a.wav.npy", [1%Z]); ("b.wav.npy", [2%Z])] |} [].
Proof. reflexivity. Qed.

(** *** The pipeline as a whole *)

Section PipelineFacts.
Context `{Collaborators}.

Lemma interleaving_Permutation {A} (streams : list (list A)) merged :
  interleaving streams merged → merged ≡ₚ concat streams.
Proof.
  induction 1 as [streams Hall|streams i x s merged Hi _ IH].
  - induction Hall as [|s streams -> _ IH]; [done|]. simpl. exact IH.
  - rewrite IH. pose proof (lookup_lt_Some _ _ _ Hi) as Hlt.
    rewrite insert_take_drop by done.
    rewrite <- (take_drop_middle streams i (x :: s)) at 3 by done.
    rewrite !concat_app. simpl.
    by rewrite Permutation_middle.
Qed.

Lemma results_of_Permutation (rq rq' : list ResultMsg) :
  rq ≡ₚ rq' → length (results_of rq) = length (results_of rq').
Proof.
  intros Hperm.
  induction Hperm as [|msg rq rq' _ IH|a b rq|rq1 rq2 rq3 _ IH1 _ IH2].
  - done.
  - destruct msg;
      rewrite ?results_of_results, ?results_of_sentinel, ?length_app; lia.
  - destruct a, b;
      repeat (rewrite results_of_results || rewrite results_of_sentinel
              || rewrite length_app); lia.
  - lia.
Qed.

(** The results a run puts on the queue are those of its batches. *)
Lemma results_of_puts gpu_id (es : list gpu_event) :
  results_of (put_of gpu_id <$> es) = infer gpu_id (concat (batches_of es)).
Proof.
  induction es as [|[how batch| |] es IH]; [done| | |].
  - rewrite fmap_cons. simpl put_of. rewrite results_of_results, IH.
    unfold batches_of at 2. simpl. fold (batches_of es).
    unfold infer. by rewrite fmap_app.
  - rewrite fmap_cons. simpl put_of. by rewrite results_of_sentinel, IH.
  - rewrite fmap_cons. simpl put_of. by rewrite results_of_sentinel, IH.
Qed.

(** Each device delivers one result per item of its shard, in order,
    whether it ends by returning or blocked. *)
Lemma device_results gpu_id shard :
  results_of (device_puts gpu_id shard)
  = infer gpu_id (feature_record <$> shard).
Proof.
  unfold device_puts, puts, process_gpu.
  rewrite results_of_puts, device_batches; [done|].
  unfold batch_size. lia.
Qed.

Lemma devices_results (shards : list (list WorkItem)) : ∀ first_gpu,
  length (results_of
            (concat (imap (λ i, device_puts (first_gpu + i)) shards)))
  = length (concat shards).
Proof.
  induction shards as [|shard shards IH]; intros first_gpu; [done|].
  rewrite imap_cons. simpl concat.
  rewrite results_of_app, !length_app, device_results.
  unfold infer at 1. rewrite !length_fmap. f_equal.
  rewrite <- (IH (S first_gpu)). do 3 f_equal.
  apply imap_ext. intros i shard' _. simpl. f_equal. lia.
Qed.

(** Whatever the number of devices and however their messages interleave
    on the results queue, the queue delivers as many results as there are
    work items. *)
Lemma pipeline_results (data : list WorkItem) (num_gpus : nat) shards rq :
  data_batches data num_gpus = inr shards →
  interleaving (imap device_puts shards) rq →
  length (results_of rq) = length data.
Proof.
  intros Hshards Hrq.
  rewrite (results_of_Permutation _ _ (interleaving_Permutation _ _ Hrq)).
  rewrite <- (data_batches_concat data num_gpus shards Hshards).
  exact (devices_results shards 0).
Qed.

(** Hence the sink of lines 157-159 always returns, with one save per work
    item, also when some GPU process is blocked for ever. *)
Lemma pipeline_sink_completes (data : list WorkItem) (num_gpus : nat)
    shards rq disk0 :
  data_batches data num_gpus = inr shards →
  interleaving (imap device_puts shards) rq →
  ∃ st unread,
    consumer disk0 rq (length data) = SinkReturned st unread
    ∧ processed_items st = length data
    ∧ length (saved st) = length data.
Proof.
  intros Hshards Hrq.
  pose proof (pipeline_results data num_gpus shards rq Hshards Hrq) as Hlen.
  destruct (consumer_loop_completes (length data) rq
              {| processed_items := 0; disk := disk0; saved := [] |})
    as (st & read & unread & Hrun & _ & _ & Hdone & Hsaved); [done|].
  exists st, unread. simpl in Hsaved.
  repeat split; try done. by rewrite Hsaved, length_fmap.
Qed.

End PipelineFacts.

(** *** Label-file discovery *)

Section DiscoveryFacts.
Context `{LabelFiles}.
Implicit Types (st : discovery) (file_path root file line : string).

(** The first encoding that decodes wins, when the ones before it raise
    [UnicodeDecodeError]. *)
Lemma try_encodings_first file_path (encs : list encoding) lines :
  try_encodings file_path encs = Lines lines
  ↔ ∃ before encoding later,
      encs = before ++ encoding :: later
      ∧ Forall (λ e, readlines file_path e = UnicodeDecodeError) before
      ∧ readlines file_path encoding = Decoded lines.
Proof.
  induction encs as [|e encs IH]; simpl.
  - split; [done|]. intros (before & ? & ? & Heq & _). by destruct before.
  - destruct (readlines file_path e) as [lines'| |] eqn:He.
    + split.
      * intros [= ->]. exists [], e, encs. by repeat split.
      * intros ([|e' before] & e'' & later & Heq & Hfail & Hok);
          simplify_eq/=; try congruence.
        apply Forall_cons in Hfail as [Hfail _]. congruence.
    + rewrite IH. split.
      * intros (before & e' & later & -> & Hfail & Hok).
        exists (e :: before), e', later. repeat split; [|done].
        by constructor.
      * intros ([|e' before] & e'' & later & Heq & Hfail & Hok);
          simplify_eq/=; try congruence.
        apply Forall_cons in Hfail as [_ Hfail].
        by exists before, e'', later.
    + split; [done|].
      intros ([|e' before] & e'' & later & Heq & Hfail & Hok);
        simplify_eq/=; try congruence.
      apply Forall_cons in Hfail as [Hfail _]. congruence.
Qed.

(** The [else] branch is taken when every decoder raises
    [UnicodeDecodeError]. *)
Lemma try_encodings_none file_path (encs : list encoding) :
  try_encodings file_path encs = NoEncoding
  ↔ Forall (λ e, readlines file_path e = UnicodeDecodeError) encs.
Proof.
  induction encs as [|e encs IH]; simpl.
  - split; [constructor|done].
  - destruct (readlines file_path e) eqn:He.
    + split; [done|]. intros [Hfail _]%Forall_cons. congruence.
    + rewrite IH. split; [by constructor|by intros [_ ?]%Forall_cons].
    + split; [done|]. intros [Hfail _]%Forall_cons. congruence.
Qed.

(** The first exception of another kind leaves the loop. *)
Lemma try_encodings_raises file_path (before later : list encoding)
    (encoding : encoding) :
  Forall (λ e, readlines file_path e = UnicodeDecodeError) before →
  readlines file_path encoding = UnicodeError →
  try_encodings file_path (before ++ encoding :: later) = Propagates.
Proof.
  intros Hfail Hraise. induction Hfail as [|e before He _ IH]; simpl.
  - by rewrite Hraise.
  - by rewrite He.
Qed.

(** C7. The walk tries utf-8, gbk, gb2312 and utf-16 in this order on a
    label file and keeps the lines of the first that decodes.  When each
    of the four raises [UnicodeDecodeError], the file adds nothing to the
    work list, one message is printed and the walk goes on with the next
    file.  When the first three raise [UnicodeDecodeError] and the utf-16
    decoder raises [UnicodeError], as it does on bytes without a byte
    order mark, line 182 does not catch it: nothing is printed, the
    remaining files and directories are not looked at, and the script is
    over.  A line that does not split at the bars into exactly three
    fields adds nothing to the work list, is printed, and the walk goes
    on with the next line; a line of three fields becomes a work item. *)
Theorem discovery_fallbacks root st file :
  encodings = [utf_8; gbk; gb2312; utf_16]
  ∧ (∀ file_path lines,
       try_encodings file_path encodings = Lines lines
       ↔ ∃ before encoding later,
           encodings = before ++ encoding :: later
           ∧ Forall (λ e, readlines file_path e = UnicodeDecodeError) before
           ∧ readlines file_path encoding = Decoded lines)
  ∧ (∀ lines,
       Py.endswith file ".txt" = true →
       try_encodings (Py.path_join root [file]) encodings = Lines lines →
       scan_file root st file
       = Scanned (foldl (scan_line (relpath root dataset_dir)) st lines))
  ∧ (∀ files,
       Py.endswith file ".txt" = true →
       Forall (λ e, readlines (Py.path_join root [file]) e
                    = UnicodeDecodeError) encodings →
       let skipped :=
         {| todo := todo st;
            stdout := stdout st ++ [cannot_decode (Py.path_join root [file])] |}
       in
       scan_file root st file = Scanned skipped
       ∧ scan_files root st (file :: files) = scan_files root skipped files)
  ∧ (∀ files walk,
       Py.endswith file ".txt" = true →
       Forall (λ e, readlines (Py.path_join root [file]) e
                    = UnicodeDecodeError) [utf_8; gbk; gb2312] →
       readlines (Py.path_join root [file]) utf_16 = UnicodeError →
       scan_file root st file = Died st
       ∧ scan_files root st (file :: files) = Died st
       ∧ discover_from st ((root, file :: files) :: walk) = Died st)
  ∧ (∀ index_folder line lines,
       length (Py.split "|" line) ≠ 3 →
       let skipped := {| todo := todo st; stdout := stdout st ++ [line] |} in
       scan_line index_folder st line = skipped
       ∧ foldl (scan_line index_folder) st (line :: lines)
         = foldl (scan_line index_folder) skipped lines)
  ∧ (∀ index_folder line spk_name wav_name text,
       Py.split "|" line = [spk_name; wav_name; text] →
       scan_line index_folder st line
       = {| todo := todo st
              ++ [Build_WorkItem spk_name wav_name text index_folder];
            stdout := stdout st |}).
Proof.
  split; [done|]. split; [intros; apply try_encodings_first|].
  split; [|split; [|split; [|split]]].
  - intros lines Htxt Hdec. unfold scan_file. by rewrite Htxt, Hdec.
  - intros files Htxt Hfail%try_encodings_none skipped.
    assert (Hskip : scan_file root st file = Scanned skipped)
      by (unfold scan_file; by rewrite Htxt, Hfail).
    split; [done|]. cbn [scan_files]. by rewrite Hskip.
  - intros files walk Htxt Hfail Hraise.
    assert (Hdie : scan_file root st file = Died st).
    { unfold scan_file. rewrite Htxt.
      change encodings with ([utf_8; gbk; gb2312] ++ utf_16 :: []).
      by rewrite try_encodings_raises. }
    split; [done|]. cbn [discover_from scan_files]. by rewrite Hdie.
  - intros index_folder line lines Hfields skipped.
    assert (Hskip : scan_line index_folder st line = skipped).
    { unfold scan_line.
      destruct (Py.split "|" line) as [|a [|b [|c [|d fields]]]]; done. }
    split; [done|]. simpl. by rewrite Hskip.
  - intros index_folder line spk_name wav_name text Hfields.
    unfold scan_line. by rewrite Hfields.
Qed.

End DiscoveryFacts.

(** *** Scenarios *)

Section Scenarios.
#[local] Existing Instance Fixture.demo.
#[local] Existing Instance Fixture.label_files.

(** A shard of two full batches: no partial batch, the sentinel meets an
    empty batch and the function returns. *)
Example clean_exit_512 :
  let run := process_gpu (producer [] (Fixture.utterances 512)) in
  (length <$> batches_of (events run)) = [256; 256]
  ∧ last (events run) = Some Sentinel92
  ∧ ending run = Returned.
Proof. vm_compute. done. Qed.

(** Two devices, ten work items and batches of four: two shards of five,
    and on each device one full batch, one batch of one item closed by the
    sentinel, and a [get] that never returns; the sink still saves the
    ten results and returns. *)
Example two_devices_ten_items :
  ∃ shard0 shard1,
    data_batches (Fixture.utterances 10) 2 = inr [shard0; shard1]
    ∧ length shard0 = 5 ∧ length shard1 = 5
    ∧ (length <$> batches_of
         (events (process_gpu_with 4 (producer [] shard0)))) = [4; 1]
    ∧ ending (process_gpu_with 4 (producer [] shard0)) = Blocked []
    ∧ (length <$> batches_of
         (events (process_gpu_with 4 (producer [] shard1)))) = [4; 1]
    ∧ ending (process_gpu_with 4 (producer [] shard1)) = Blocked []
    ∧ ∃ st,
        consumer ∅
          (puts 0 (process_gpu_with 4 (producer [] shard0))
           ++ puts 1 (process_gpu_with 4 (producer [] shard1))) 10
        = SinkReturned st []
        ∧ processed_items st = 10 ∧ size (disk st) = 10.
Proof. do 2 eexists. vm_compute. repeat split; try done. by eexists. Qed.

Lemma result_sink_witness :
  let result_queue : list ResultMsg :=
    [None; Some [("a.wav", [1%Z])]; None;
     Some [("b.wav", [2%Z]); ("c.wav", [3%Z])]; None] in
  length (results_of result_queue) = 3
  ∧ ∃ st read unread,
      consumer ∅ result_queue 3 = SinkReturned st unread
      ∧ result_queue = read ++ unread
      ∧ results_of unread = []
      ∧ processed_items st = 3
      ∧ length (saved st) = 3
      ∧ saved st = artifact <$> results_of result_queue
      ∧ disk st = written ∅ (artifact <$> results_of result_queue)
      ∧ (∀ path, path ∈ (saved st).*1 →
           ∃ speech_token,
             (path, speech_token) ∈ saved st
             ∧ disk st !! path = Some speech_token)
      ∧ (∀ path, path ∉ (saved st).*1 →
           disk st !! path = (∅ : gmap string Tokens) !! path).
Proof.
  intros result_queue. split; [reflexivity|].
  destruct (result_sink ∅ result_queue 3) as (_ & _ & _ & _ & _ & Hall).
  apply Hall. reflexivity.
Defined.

(** The walk over a directory with a label file that needs the second
    encoding, a label file on which every decoder raises
    [UnicodeDecodeError], and a file that is no label file. *)
Example discover_book :
  discover [("./dataset/book", ["a.txt"; "b.txt"; "cover.jpg"])]
  = Scanned
      {| todo := [Build_WorkItem "spk" "u1.wav" "hello" "book"];
         stdout := ["no bars here"; "spk|u2.wav|a|b";
                    cannot_decode "./dataset/book/b.txt"] |}.
Proof. vm_compute. done. Qed.

(** The same directory with a label file of two bytes [80 80] in the
    first place: the script dies on it with an empty work list, and
    [a.txt] is never read. *)
Example discover_dies :
  discover [("./dataset/book", ["c.txt"; "a.txt"; "b.txt"])]
  = Died {| todo := []; stdout := [] |}.
Proof. vm_compute. done. Qed.

Lemma discovery_fallbacks_witness :
  let st := {| todo := []; stdout := [] |} in
  Py.endswith "c.txt" ".txt" = true
  ∧ Forall (λ e, readlines (Py.path_join "./dataset/book" ["c.txt"]) e
                 = UnicodeDecodeError) [utf_8; gbk; gb2312]
  ∧ readlines (Py.path_join "./dataset/book" ["c.txt"]) utf_16 = UnicodeError
  ∧ scan_file "./dataset/book" st "c.txt" = Died st
  ∧ scan_files "./dataset/book" st ["c.txt"; "a.txt"] = Died st
  ∧ discover_from st [("./dataset/book", ["c.txt"; "a.txt"]);
                      ("./dataset/other", ["d.txt"])] = Died st.
Proof.
  intros st.
  assert (Htxt : Py.endswith "c.txt" ".txt" = true) by reflexivity.
  assert (Hfail : Forall (λ e, readlines
                            (Py.path_join "./dataset/book" ["c.txt"]) e
                          = UnicodeDecodeError) [utf_8; gbk; gb2312])
    by (repeat constructor).
  assert (Hraise : readlines (Py.path_join "./dataset/book" ["c.txt"]) utf_16
                   = UnicodeError) by reflexivity.
  split; [exact Htxt|]. split; [exact Hfail|]. split; [exact Hraise|].
  destruct (discovery_fallbacks "./dataset/book" st "c.txt")
    as (_ & _ & _ & _ & Hdies & _).
  exact (Hdies ["a.txt"] [("./dataset/other", ["d.txt"])] Htxt Hfail Hraise).
Defined.

End Scenarios.

(** ** Part III: further properties of the code *)

(** *** What the sink reads and what it leaves on disk *)

Section SinkRuns.
Implicit Types (st : sink) (results : list ResultRecord).
Implicit Types (rq read unread result_queue : list ResultMsg).
Implicit Types (d : gmap string Tokens) (l : list (string * Tokens)).

(** X1. When the queue delivers fewer results than [total_items], be it
    because a device died, the sink saves every result it gets, in the
    order of the queue, and then waits in [get] for ever: it never
    returns. *)
Theorem consumer_starves (disk0 : gmap string Tokens) result_queue
    total_items :
  length (results_of result_queue) < total_items →
  ∃ st,
    consumer disk0 result_queue total_items = SinkBlocked st
    ∧ saved st = artifact <$> results_of result_queue
    ∧ processed_items st = length (results_of result_queue)
    ∧ disk st = written disk0 (artifact <$> results_of result_queue).
Proof.
  intros Hfew. unfold consumer.
  destruct (consumer_loop_run total_items result_queue
              {| processed_items := 0; disk := disk0; saved := [] |})
    as (read & unread & Hsplit & Hsaved & Hcount & Hdisk & _ & Hend).
  cbn [processed_items disk saved] in *.
  assert (Hlen : length (results_of read) ≤ length (results_of result_queue))
    by (rewrite Hsplit, results_of_app, length_app; lia).
  destruct Hend as [[Hreached _]|(_ & -> & Hrun)]; [lia|].
  rewrite app_nil_r in Hsplit. subst read.
  eexists. split; [exact Hrun|]. by rewrite Hsaved, Hcount, Hdisk.
Qed.

(** X2. When the queue delivers at least [total_items] results, the sink
    returns after the shortest run of messages that carries that many:
    it saves the results of those messages, all of them, so that it may
    pass the total by less than the length of the last list, and it
    reads nothing behind them. *)
Theorem consumer_stops_at_total (disk0 : gmap string Tokens) result_queue
    total_items :
  total_items ≤ length (results_of result_queue) →
  ∃ st read unread,
    consumer disk0 result_queue total_items = SinkReturned st unread
    ∧ result_queue = read ++ unread
    ∧ saved st = artifact <$> results_of read
    ∧ processed_items st = length (results_of read)
    ∧ total_items ≤ processed_items st
    ∧ (∀ read' msg, read = read' ++ [msg] →
         length (results_of read') < total_items).
Proof.
  intros Henough. unfold consumer.
  destruct (consumer_loop_run total_items result_queue
              {| processed_items := 0; disk := disk0; saved := [] |})
    as (read & unread & Hsplit & Hsaved & Hcount & _ & Hshort & Hend).
  cbn [processed_items disk saved] in *.
  destruct Hend as [[Hreached Hrun]|(Hless & -> & _)].
  - eexists _, read, unread. split; [exact Hrun|].
    rewrite Hsaved, Hcount. by repeat split.
  - rewrite app_nil_r in Hsplit. subst read. lia.
Qed.

(** X3. Whether the sink returned or waits, its disk is the initial disk
    with its saves written in order: a path it never saved keeps its
    content, and a path saved several times, as for a work item listed
    twice, holds the tokens of the last of these saves. *)
Theorem sink_last_save_wins (disk0 : gmap string Tokens) result_queue
    total_items :
  let st := sink_state (consumer disk0 result_queue total_items) in
  disk st = written disk0 (saved st)
  ∧ (∀ path, path ∉ (saved st).*1 → disk st !! path = disk0 !! path)
  ∧ (∀ path tokens before later,
       saved st = before ++ (path, tokens) :: later →
       path ∉ later.*1 →
       disk st !! path = Some tokens).
Proof.
  intros st. subst st. unfold consumer.
  destruct (consumer_loop_run total_items result_queue
              {| processed_items := 0; disk := disk0; saved := [] |})
    as (read & unread & _ & Hsaved & _ & Hdisk & _ & _).
  cbn [processed_items disk saved app] in *.
  rewrite Hdisk, Hsaved. split; [done|]. split.
  - intros path. apply written_other.
  - intros path tokens before later -> Hlater. by apply written_last.
Qed.

End SinkRuns.

Lemma consumer_starves_witness :
  let result_queue : list ResultMsg :=
    [Some [("a.wav", [1%Z])]; None; Some [("b.wav", [2%Z])]; None] in
  length (results_of result_queue) < 3
  ∧ ∃ st,
      consumer ∅ result_queue 3 = SinkBlocked st
      ∧ saved st = artifact <$> results_of result_queue
      ∧ processed_items st = length (results_of result_queue)
      ∧ disk st = written ∅ (artifact <$> results_of result_queue).
Proof.
  intros result_queue.
  assert (Hfew : length (results_of result_queue) < 3) by (cbn; lia).
  split; [exact Hfew|].
  exact (consumer_starves ∅ result_queue 3 Hfew).
Defined.

Lemma consumer_stops_at_total_witness :
  let result_queue : list ResultMsg :=
    [Some [("a.wav", [1%Z])]; None;
     Some [("b.wav", [2%Z]); ("c.wav", [3%Z])]; Some [("d.wav", [4%Z])]] in
  2 ≤ length (results_of result_queue)
  ∧ ∃ st read unread,
      consumer ∅ result_queue 2 = SinkReturned st unread
      ∧ result_queue = read ++ unread
      ∧ saved st = artifact <$> results_of read
      ∧ processed_items st = length (results_of read)
      ∧ 2 ≤ processed_items st
      ∧ (∀ read' msg, read = read' ++ [msg] →
           length (results_of read') < 2).
Proof.
  intros result_queue.
  assert (Henough : 2 ≤ length (results_of result_queue)) by (cbn; lia).
  split; [exact Henough|].
  exact (consumer_stops_at_total ∅ result_queue 2 Henough).
Defined.

(** *** The GPU process over any queue, and under any schedule *)

Section GpuRuns.
Context `{Collaborators}.
Implicit Types (q rest data_queue : list (option FeatureRecord)).
Implicit Types (batch items : list FeatureRecord) (s : device).

Lemma omap_id_Some {A} (l : list A) : omap id (Some <$> l) = l.
Proof. induction l as [|x l IH]; [done|]. cbn. by rewrite IH. Qed.

Lemma batches_of_batch how batch (es : list gpu_event) :
  batches_of (Batch how batch :: es) = batch :: batches_of es.
Proof. done. Qed.

Lemma process_gpu_with_conserves bs : 0 < bs → ∀ q,
  ∃ read unread,
    q = read ++ unread
    ∧ omap id read
      = concat (batches_of (events (process_gpu_with bs q)))
        ++ in_hand (process_gpu_with bs q)
    ∧ match ending (process_gpu_with bs q) with
      | Returned => ∃ read', read = read' ++ [None]
      | Blocked _ => unread = []
      | OutOfFuel => False
      end.
Proof.
  intros Hbs q. induction q as [q IH] using (induction_ltof1 _ length).
  rewrite process_gpu_with_unfold.
  destruct (accumulate bs [] q) as [how [|x b] rest|rest|b] eqn:Hacc.
  - by apply accumulate_nonempty in Hacc.
  - pose proof (accumulate_left_shorter _ _ _ _ _ _ Hacc) as Hshort.
    destruct (IH rest Hshort) as (read & unread & Hrest & Hread & Hend).
    apply accumulate_left in Hacc as (items & Hitems & Hcase).
    cbn [app] in Hitems. subst items.
    assert (Hpre : ∃ pre, q = pre ++ rest ∧ omap id pre = x :: b).
    { destruct Hcase as [(_ & _ & ->)|(_ & _ & _ & ->)].
      - exists (Some <$> x :: b). split; [done|apply omap_id_Some].
      - exists ((Some <$> x :: b) ++ [None]).
        split; [by rewrite <- app_assoc|].
        rewrite omap_app, omap_id_Some. cbn [omap list_omap id].
        apply app_nil_r. }
    destruct Hpre as (pre & -> & Hpre).
    remember (process_gpu_with bs rest) as r eqn:Hr.
    change (events (after (Batch how (x :: b)) r))
      with (Batch how (x :: b) :: events r).
    change (in_hand (after (Batch how (x :: b)) r)) with (in_hand r).
    change (ending (after (Batch how (x :: b)) r)) with (ending r).
    rewrite batches_of_batch. cbn [concat].
    exists (pre ++ read), unread.
    split; [by rewrite Hrest, app_assoc|]. split.
    + by rewrite omap_app, Hpre, Hread, app_assoc.
    + destruct (ending r); [|done|done].
      destruct Hend as [read' ->]. exists (pre ++ read').
      by rewrite app_assoc.
  - apply accumulate_returned in Hacc as [_ ->].
    exists [None], rest. repeat split. by exists [].
  - apply accumulate_starved in Hacc as (items & -> & _ & ->).
    exists (Some <$> items), []. rewrite app_nil_r, omap_id_Some.
    by repeat split.
Qed.

(** X4. Whatever the device queue delivers, sentinels in any number and
    places included, the GPU process neither drops nor reorders: the
    records of the messages it has read are, in order, those of the
    batches it has processed followed by those of the batch it holds when
    it waits in [get].  It returns only on a sentinel, and reads nothing
    behind that sentinel; it waits only when it has read the whole
    queue. *)
Theorem process_gpu_conserves data_queue :
  ∃ read unread,
    data_queue = read ++ unread
    ∧ omap id read
      = concat (batches_of (events (process_gpu data_queue)))
        ++ in_hand (process_gpu data_queue)
    ∧ match ending (process_gpu data_queue) with
      | Returned => ∃ read', read = read' ++ [None]
      | Blocked _ => unread = []
      | OutOfFuel => False
      end.
Proof. apply process_gpu_with_conserves. unfold batch_size. lia. Qed.

Lemma accumulate_short bs items :
  length items < bs → accumulate bs [] (Some <$> items) = Starved items.
Proof.
  intros Hlt.
  replace bs with (length items + S (bs - length items - 1)) by lia.
  rewrite <- (app_nil_r (Some <$> items)), accumulate_items. done.
Qed.

(** X5. On a queue that ends without a sentinel, as a producer that died
    leaves it, the GPU process runs the full batches and then waits in
    [get] for ever with the remaining [length items mod batch_size]
    records in hand: their results are never put on the results queue. *)
Theorem process_gpu_without_sentinel (gpu_id : nat) items :
  let run := process_gpu (Some <$> items) in
  let full := length items / batch_size in
  events run = Batch RangeExhausted <$> chunks full batch_size items
  ∧ ending run = Blocked (drop (full * batch_size) items)
  ∧ length (drop (full * batch_size) items) = length items mod batch_size
  ∧ results_of (puts gpu_id run)
    = infer gpu_id (take (full * batch_size) items).
Proof.
  intros run full. subst run.
  assert (Hbs : 0 < batch_size) by (unfold batch_size; lia).
  destruct (div_mod_split (length items) batch_size) as [Hle Hmod]; [lia|].
  fold full in Hle, Hmod.
  assert (Hrun : process_gpu (Some <$> items)
                 = after_all
                     (Batch RangeExhausted <$> chunks full batch_size items)
                     {| events := [];
                        ending := Blocked (drop (full * batch_size) items) |}).
  { unfold process_gpu.
    rewrite <- (app_nil_r (Some <$> items)).
    rewrite (process_gpu_with_chunks batch_size full) by lia.
    rewrite app_nil_r, process_gpu_with_unfold, accumulate_short.
    - done.
    - pose proof (Nat.mod_upper_bound (length items) batch_size).
      rewrite length_drop. lia. }
  rewrite Hrun, events_after_all, ending_after_all. cbn [events ending].
  rewrite app_nil_r. repeat split.
  - rewrite length_drop. lia.
  - unfold puts. rewrite events_after_all. cbn [events]. rewrite app_nil_r.
    by rewrite results_of_puts, batches_of_full, chunks_concat.
Qed.

(** Whether a device can take a step can be told from its state. *)
Lemma step_or_stuck s : red step s ∨ nf step s.
Proof.
  destruct s as [[[|item remaining]|] [|msg q] [[|rounds] batch|] es];
    try (left; eexists; constructor);
    right; intros [s' Hstep]; inversion Hstep.
Qed.

(** Every run of a device comes to a state with no step left. *)
Lemma device_halts : ∀ n s, steps_left s = n → ∃ s', rtc step s s' ∧ nf step s'.
Proof.
  induction n as [|n IH]; intros s Hleft;
    (destruct (step_or_stuck s) as [[s1 Hstep]|Hstuck];
     [|by exists s]);
    pose proof (step_steps_left s s1 Hstep) as Hdec; [lia|].
  destruct (IH s1) as (s' & Hrun & Hstuck); [lia|].
  exists s'. split; [by eapply rtc_l|done].
Qed.

(** X6. However the steps of a producer and of its GPU process are
    scheduled, the device comes to rest, after [2 * (size + 1)] steps at
    most, and when it rests the producer is over and the GPU process has
    done exactly what [process_gpu] does over the whole queue of the
    producer, and is where that run ends. *)
Theorem schedules_agree (shard : list WorkItem) n s :
  nsteps step n (start shard) s →
  n ≤ 2 * (length shard + 1)
  ∧ (∃ s', rtc step s s' ∧ nf step s')
  ∧ (nf step s →
       prod s = ProducerDone
       ∧ out s = events (process_gpu (producer [] shard))
       ∧ match ending (process_gpu (producer [] shard)) with
         | Returned => gpu s = GpuDone
         | Blocked batch => ∃ rounds, gpu s = AtGet rounds batch
         | OutOfFuel => False
         end).
Proof.
  intros Hsteps. split; [|split].
  - pose proof (nsteps_steps_left _ _ _ Hsteps) as Hleft.
    unfold steps_left in Hleft. cbn [start prod queue pending] in Hleft.
    rewrite length_app, !length_fmap in Hleft. cbn [length] in Hleft. lia.
  - by eapply device_halts.
  - intros Hstuck. split.
    + destruct s as [[[|item remaining]|] q pc es]; [| |done];
        destruct Hstuck; eexists; constructor.
    + apply run_adequate; [by eapply rtc_nsteps_2|done].
Qed.

End GpuRuns.

(** *** From the work list to the disk *)

Section PipelineRuns.
Context `{Collaborators}.
Implicit Types (data shard : list WorkItem) (shards : list (list WorkItem)).
Implicit Types (rq : list ResultMsg).

Lemma append_inj_l (t : string) : ∀ s s', s +:+ t = s' +:+ t → s = s'.
Proof.
  induction s as [|c s IH]; intros [|c' s'] Heq.
  - done.
  - apply (f_equal String.length) in Heq.
    rewrite !length_append in Heq. cbn in Heq. lia.
  - apply (f_equal String.length) in Heq.
    rewrite !length_append in Heq. cbn in Heq. lia.
  - injection Heq as -> Heq. f_equal. by apply IH.
Qed.

Lemma elem_of_concat {A} (x : A) (ls : list (list A)) :
  x ∈ concat ls ↔ ∃ l, x ∈ l ∧ l ∈ ls.
Proof.
  induction ls as [|l ls IH]; cbn [concat].
  - split; [by intros ?%elem_of_nil|by intros (l & _ & ?%elem_of_nil)].
  - rewrite elem_of_app, IH. split.
    + intros [Hx|(l' & Hx & Hl')].
      * exists l. split; [done|by left].
      * exists l'. split; [done|by right].
    + intros (l' & Hx & [->|Hl']%elem_of_cons); [by left|].
      right. by exists l'.
Qed.

Lemma results_of_perm rq rq' : rq ≡ₚ rq' → results_of rq ≡ₚ results_of rq'.
Proof.
  induction 1 as [|msg rq rq' _ IH|a b rq|rq1 rq2 rq3 _ IH1 _ IH2].
  - done.
  - destruct msg;
      rewrite ?results_of_results, ?results_of_sentinel; by rewrite ?IH.
  - destruct a, b;
      repeat (rewrite results_of_results || rewrite results_of_sentinel);
      try done. by rewrite !app_assoc, (Permutation_app_comm l).
  - by etrans.
Qed.

(** The result of an item on a GPU. *)
Lemma infer_records gpu_id shard :
  infer gpu_id (feature_record <$> shard)
  = (λ item, (wav_path_of item, tokens_of gpu_id item)) <$> shard.
Proof.
  unfold infer. rewrite <- list_fmap_compose. apply list_fmap_ext.
  intros _ item _. cbn. unfold feature_record, tokens_of.
  by destruct (load_and_preprocess_audio (wav_path_of item) 16000%Z).
Qed.

Lemma devices_all_results shards : ∀ first_gpu,
  results_of (concat (imap (λ i, device_puts (first_gpu + i)) shards))
  = concat (imap (λ i shard,
                    (λ item, (wav_path_of item,
                              tokens_of (first_gpu + i) item)) <$> shard)
                 shards).
Proof.
  induction shards as [|shard shards IH]; intros first_gpu; [done|].
  rewrite !imap_cons. cbn [concat].
  rewrite results_of_app, device_results, infer_records. f_equal.
  etrans; [|etrans; [apply (IH (S first_gpu))|]].
  - do 2 f_equal. apply imap_ext. intros i shard' _. cbn. f_equal. lia.
  - f_equal. apply imap_ext. intros i shard' _. cbn.
    by replace (S (first_gpu + i)) with (first_gpu + S i) by lia.
Qed.

(** The results the queue delivers, in some order: one per item of every
    shard, by the GPU of the shard. *)
Lemma pipeline_all_results shards rq :
  interleaving (imap device_puts shards) rq →
  results_of rq
  ≡ₚ concat (imap (λ i shard,
                     (λ item, (wav_path_of item, tokens_of i item)) <$> shard)
                  shards).
Proof.
  intros Hrq%interleaving_Permutation%results_of_perm.
  rewrite Hrq. pose proof (devices_all_results shards 0) as Hall.
  cbn [Nat.add] in Hall. by rewrite <- Hall.
Qed.

Lemma pipeline_result_elem shards rq (r : ResultRecord) :
  interleaving (imap device_puts shards) rq →
  r ∈ results_of rq
  ↔ ∃ gpu_id shard item,
      shards !! gpu_id = Some shard ∧ item ∈ shard
      ∧ r = (wav_path_of item, tokens_of gpu_id item).
Proof.
  intros Hrq. rewrite (pipeline_all_results shards rq Hrq), elem_of_concat.
  split.
  - intros (l & Hr & (i & shard & -> & Hshard)%elem_of_lookup_imap).
    apply list_elem_of_fmap in Hr as (item & -> & Hitem). eauto 6.
  - intros (i & shard & item & Hshard & Hitem & ->).
    eexists. split; [|by eapply elem_of_lookup_imap_2].
    apply list_elem_of_fmap. eauto.
Qed.

(** X7. For any number of devices and however their messages interleave
    on the results queue, also when GPU processes end up waiting for
    ever: the sink returns, and then the disk holds, for every item of
    the work list, the tokens of its audio file under the path of that
    file followed by [.npy], computed by one of the GPUs; every other
    path is as it was. *)
Theorem every_item_saved (disk0 : gmap string Tokens) data (num_gpus : nat)
    shards rq :
  data_batches data num_gpus = inr shards →
  interleaving (imap device_puts shards) rq →
  ∃ st unread,
    consumer disk0 rq (length data) = SinkReturned st unread
    ∧ length (saved st) = length data
    ∧ (∀ item, item ∈ data →
         ∃ gpu_id, gpu_id < num_gpus
           ∧ disk st !! (wav_path_of item +:+ ".npy")
             = Some (tokens_of gpu_id item))
    ∧ (∀ path,
         (∀ item, item ∈ data → path ≠ wav_path_of item +:+ ".npy") →
         disk st !! path = disk0 !! path).
Proof.
  intros Hshards Hrq.
  pose proof (pipeline_results data num_gpus shards rq Hshards Hrq) as Hlen.
  pose proof (data_batches_concat data num_gpus shards Hshards) as Hdata.
  pose proof (data_batches_length data num_gpus shards Hshards) as Hgpus.
  destruct (consumer_all_results disk0 rq (length data) Hlen)
    as (st & unread & Hrun & Hsaved & Hdisk & _).
  exists st, unread. split; [exact Hrun|].
  split; [by rewrite Hsaved, length_fmap|]. split.
  - intros item Hitem. rewrite <- Hdata in Hitem.
    apply elem_of_concat in Hitem as (shard & Hitem & Hshard).
    apply list_elem_of_lookup in Hshard as [gpu_id Hshard].
    assert (Hres : (wav_path_of item, tokens_of gpu_id item) ∈ results_of rq)
      by (apply (pipeline_result_elem shards rq _ Hrq); eauto 6).
    destruct (written_some (saved st) disk0 (wav_path_of item +:+ ".npy"))
      as (tokens & Hsave & Hlook).
    { rewrite Hsaved. apply list_elem_of_fmap.
      exists (artifact (wav_path_of item, tokens_of gpu_id item)).
      split; [done|]. apply list_elem_of_fmap. eauto. }
    rewrite Hsaved in Hsave.
    apply list_elem_of_fmap in Hsave as ([p t] & [= Hp ->] & Hr).
    apply append_inj_l in Hp. subst p.
    apply (pipeline_result_elem shards rq _ Hrq) in Hr
      as (gpu_id' & shard' & item' & Hshard' & _ & [= Hpath ->]).
    exists gpu_id'. split.
    + rewrite <- Hgpus. by eapply lookup_lt_Some.
    + rewrite Hdisk, Hlook. f_equal. unfold tokens_of. by rewrite Hpath.
  - intros path Hother. rewrite Hdisk. apply written_other.
    rewrite Hsaved. intros ([p t] & -> & Hr)%list_elem_of_fmap.
    apply list_elem_of_fmap in Hr as ([p' t'] & [= -> ->] & Hr).
    apply (pipeline_result_elem shards rq _ Hrq) in Hr
      as (gpu_id & shard & item & Hshard & Hitem & [= -> ->]).
    apply (Hother item); [|done].
    rewrite <- Hdata. apply elem_of_concat. exists shard.
    split; [done|]. by eapply list_elem_of_lookup_2.
Qed.

(** A GPU process behind a producer returns exactly when the shard is a
    whole number of batches. *)
Lemma returned_device shard :
  returned (process_gpu (producer [] shard))
  = bool_decide (length shard mod batch_size = 0).
Proof.
  unfold returned, process_gpu. rewrite device_ending
    by (unfold batch_size; lia).
  case_decide; [by rewrite bool_decide_true|by rewrite bool_decide_false].
Qed.

Lemma all_returned shards :
  forallb returned ((λ shard, process_gpu (producer [] shard)) <$> shards)
  = true
  ↔ Forall (λ shard, length shard mod batch_size = 0) shards.
Proof.
  induction shards as [|shard shards IH]; [done|].
  rewrite fmap_cons. cbn [forallb].
  rewrite andb_true_iff, IH, returned_device, bool_decide_eq_true.
  by rewrite Forall_cons.
Qed.

Lemma async_process_sharded (disk0 : gmap string Tokens) data (num_gpus : nat)
    shards rq :
  data_batches data num_gpus = inr shards →
  interleaving (imap device_puts shards) rq →
  ∃ st,
    processed_items st = length data
    ∧ saved st = artifact <$> results_of rq
    ∧ disk st = written disk0 (artifact <$> results_of rq)
    ∧ async_process disk0 data num_gpus rq
      = if forallb returned
             ((λ shard, process_gpu (producer [] shard)) <$> shards)
        then Finishes st else Hangs.
Proof.
  intros Hshards Hrq.
  pose proof (pipeline_results data num_gpus shards rq Hshards Hrq) as Hlen.
  destruct (consumer_all_results disk0 rq (length data) Hlen)
    as (st & unread & Hrun & Hsaved & Hdisk & Hcount).
  exists st. unfold async_process. rewrite Hshards, Hrun.
  by rewrite Hdisk, Hsaved.
Qed.

(** X8. Without a device [async_process] raises at the division.  With
    devices, and however the results interleave, every [join] returns,
    with all the results saved, exactly when the size of every shard is a
    multiple of [batch_size], empty shards included; as soon as one shard
    is not, the loop of the [join]s waits for ever and the script never
    ends. *)
Theorem async_process_ends (disk0 : gmap string Tokens) data (num_gpus : nat)
    rq :
  (num_gpus = 0 →
     async_process disk0 data num_gpus rq = Raises Py.ZeroDivisionError)
  ∧ (∀ shards,
       data_batches data num_gpus = inr shards →
       interleaving (imap device_puts shards) rq →
       (Forall (λ shard, length shard mod batch_size = 0) shards →
          ∃ st, async_process disk0 data num_gpus rq = Finishes st
                ∧ processed_items st = length data
                ∧ disk st = written disk0 (artifact <$> results_of rq))
       ∧ (¬ Forall (λ shard, length shard mod batch_size = 0) shards →
            async_process disk0 data num_gpus rq = Hangs)).
Proof.
  split.
  - intros ->. done.
  - intros shards Hshards Hrq.
    destruct (async_process_sharded disk0 data num_gpus shards rq Hshards Hrq)
      as (st & Hcount & _ & Hdisk & Hrun).
    split.
    + intros Hall%all_returned. rewrite Hall in Hrun. by exists st.
    + intros Hnot. rewrite Hrun.
      destruct (forallb returned _) eqn:Hall; [|done].
      by apply all_returned in Hall.
Qed.

Lemma data_batches_single data : data_batches data 1 = inr [data].
Proof.
  rewrite data_batches_closed. rewrite Nat.div_1_r, Nat.mod_1_r.
  rewrite decide_False by lia. cbn [seq fmap list_fmap app].
  rewrite Nat.mul_0_l, drop_0, app_nil_r. by rewrite take_ge.
Qed.

Lemma interleaving_single {A} (l : list A) : interleaving [l] l.
Proof.
  induction l as [|x l IH].
  - apply interleaving_done. by repeat constructor.
  - by apply (interleaving_next [x :: l] 0 x l l).
Qed.

(** X9. On a machine with one GPU the script comes to its end when the
    number of work items is a multiple of 256, the empty work list
    included, having saved the tokens of the items in the order of the
    work list; for any other number it never ends. *)
Theorem single_gpu_ends (disk0 : gmap string Tokens) data :
  (length data mod batch_size = 0 →
     ∃ st,
       async_process disk0 data 1 (device_puts 0 data) = Finishes st
       ∧ saved st
         = (λ item, (wav_path_of item +:+ ".npy", tokens_of 0 item)) <$> data)
  ∧ (length data mod batch_size ≠ 0 →
       async_process disk0 data 1 (device_puts 0 data) = Hangs).
Proof.
  destruct (async_process_sharded disk0 data 1 [data] (device_puts 0 data))
    as (st & _ & Hsaved & _ & Hrun).
  { apply data_batches_single. }
  { apply (interleaving_single (device_puts 0 data)). }
  cbn [fmap list_fmap forallb] in Hrun.
  rewrite returned_device, andb_true_r in Hrun.
  split; intros Hrem.
  - rewrite bool_decide_true in Hrun by done.
    exists st. split; [done|].
    rewrite Hsaved, device_results, infer_records, <- list_fmap_compose.
    done.
  - by rewrite bool_decide_false in Hrun.
Qed.

End PipelineRuns.

Section PipelineScenarios.
#[local] Existing Instance Fixture.demo.

Lemma every_item_saved_witness :
  let data := Fixture.utterances 3 in
  let shards := [[Fixture.utterance 0];
                 [Fixture.utterance 1; Fixture.utterance 2]] in
  let rq := device_puts 1 [Fixture.utterance 1; Fixture.utterance 2]
            ++ device_puts 0 [Fixture.utterance 0] in
  data_batches data 2 = inr shards
  ∧ interleaving (imap device_puts shards) rq
  ∧ ∃ st unread,
      consumer ∅ rq (length data) = SinkReturned st unread
      ∧ length (saved st) = length data
      ∧ (∀ item, item ∈ data →
           ∃ gpu_id, gpu_id < 2
             ∧ disk st !! (wav_path_of item +:+ ".npy")
               = Some (tokens_of gpu_id item))
      ∧ (∀ path,
           (∀ item, item ∈ data → path ≠ wav_path_of item +:+ ".npy") →
           disk st !! path = (∅ : gmap string Tokens) !! path).
Proof.
  intros data shards rq.
  assert (Hshards : data_batches data 2 = inr shards) by reflexivity.
  assert (Hrq : interleaving (imap device_puts shards) rq).
  { vm_compute.
    eapply (interleaving_next _ 1); [reflexivity|]. cbn.
    eapply (interleaving_next _ 0); [reflexivity|]. cbn.
    apply interleaving_done. by repeat constructor. }
  split; [exact Hshards|]. split; [exact Hrq|].
  exact (every_item_saved ∅ data 2 shards rq Hshards Hrq).
Defined.

Lemma schedules_agree_witness :
  let shard := [Fixture.utterance 0] in
  nsteps step 4 (start shard) (deadlocked shard)
  ∧ 4 ≤ 2 * (length shard + 1)
  ∧ (∃ s', rtc step (deadlocked shard) s' ∧ nf step s')
  ∧ (nf step (deadlocked shard) →
       prod (deadlocked shard) = ProducerDone
       ∧ out (deadlocked shard) = events (process_gpu (producer [] shard))
       ∧ match ending (process_gpu (producer [] shard)) with
         | Returned => gpu (deadlocked shard) = GpuDone
         | Blocked batch => ∃ rounds, gpu (deadlocked shard) = AtGet rounds batch
         | OutOfFuel => False
         end).
Proof.
  intros shard.
  assert (Hsteps : nsteps step 4 (start shard) (deadlocked shard)).
  { eapply nsteps_l; [apply step_put|].
    eapply nsteps_l; [apply step_put_sentinel|].
    eapply nsteps_l; [apply step_get|].
    eapply nsteps_l; [apply step_get|].
    apply nsteps_O. }
  split; [exact Hsteps|].
  exact (schedules_agree shard 4 (deadlocked shard) Hsteps).
Defined.

End PipelineScenarios.

(** *** Lines, fields and work items *)

Section DiscoveryRuns.
Context `{LabelFiles}.
Implicit Types (st : discovery) (line root file : string).
Implicit Types (lines : list string) (sep : Ascii.ascii).

Lemma split_not_nil sep (s : string) : Py.split sep s ≠ [].
Proof.
  destruct s as [|c s]; cbn; [done|].
  destruct (Ascii.eqb c sep); [done|]. by destruct (Py.split sep s).
Qed.

(** One field more than separators. *)
Lemma split_count sep (s : string) :
  length (Py.split sep s) = S (str_count sep s).
Proof.
  induction s as [|c s IH]; cbn; [done|].
  destruct (Ascii.eqb c sep); cbn; [by rewrite IH|].
  destruct (Py.split sep s); cbn in *; [done|lia].
Qed.

Lemma str_join_cons sep (field : string) (fields : list string) :
  fields ≠ [] →
  str_join sep (field :: fields)
  = field +:+ String sep (str_join sep fields).
Proof. by destruct fields. Qed.

(** Joining the fields with the separator gives the string back. *)
Lemma split_join sep (s : string) : str_join sep (Py.split sep s) = s.
Proof.
  induction s as [|c s IH]; cbn [Py.split]; [done|].
  pose proof (split_not_nil sep s) as Hne.
  destruct (Ascii.eqb c sep) eqn:Hc.
  - apply Ascii.eqb_eq in Hc as ->.
    rewrite str_join_cons, IH by done. done.
  - destruct (Py.split sep s) as [|f fs]; [done|].
    destruct fs as [|f' fs].
    + cbn [str_join] in *. by rewrite IH.
    + rewrite str_join_cons in IH by done.
      rewrite str_join_cons by done. by rewrite <- IH.
Qed.

(** No field holds a separator. *)
Lemma split_fields sep (s : string) :
  Forall (λ field, str_count sep field = 0) (Py.split sep s).
Proof.
  induction s as [|c s IH]; cbn [Py.split]; [by repeat constructor|].
  destruct (Ascii.eqb c sep) eqn:Hc; [by constructor|].
  destruct (Py.split sep s) as [|f fs].
  - repeat constructor. cbn. by rewrite Hc.
  - apply Forall_cons in IH as [Hf Hfs]. constructor; [|done].
    cbn. by rewrite Hc.
Qed.

(** X10. A line becomes a work item exactly when it holds two bars.
    The three fields of the item then hold no bar and, with bars between
    them, give the line back, so that the text keeps the end of the line;
    a line with fewer or more bars, as a text with a bar in it, is
    printed and gives no item. *)
Theorem scan_line_fields (folder : string) st line :
  (str_count "|" line = 2 →
     ∃ item,
       scan_line folder st line
       = {| todo := todo st ++ [item]; stdout := stdout st |}
       ∧ item_line item = line
       ∧ index_folder item = folder
       ∧ str_count "|" (spk_name item) = 0
       ∧ str_count "|" (wav_name item) = 0
       ∧ str_count "|" (text item) = 0)
  ∧ (str_count "|" line ≠ 2 →
       scan_line folder st line
       = {| todo := todo st; stdout := stdout st ++ [line] |}).
Proof.
  pose proof (split_count "|" line) as Hcount.
  pose proof (split_join "|" line) as Hjoin.
  pose proof (split_fields "|" line) as Hfields.
  unfold scan_line.
  destruct (Py.split "|" line) as [|a [|b [|c [|d fields]]]];
    cbn [length] in Hcount; (split; intros Hbars; [try lia|try done; lia]).
  exists (Build_WorkItem a b c folder).
  apply Forall_cons in Hfields as [Ha Hfields].
  apply Forall_cons in Hfields as [Hb Hfields].
  apply Forall_cons in Hfields as [Hc _].
  by repeat split.
Qed.

(** The loop of lines 188-193 over the lines of a file. *)
Lemma scan_lines (folder : string) : ∀ lines st,
  ∃ items,
    todo (foldl (scan_line folder) st lines) = todo st ++ items
    ∧ stdout (foldl (scan_line folder) st lines)
      = stdout st ++ filter (λ line, str_count "|" line ≠ 2) lines
    ∧ item_line <$> items = filter (λ line, str_count "|" line = 2) lines
    ∧ Forall (λ item, index_folder item = folder) items.
Proof.
  induction lines as [|line lines IH]; intros st; cbn [foldl].
  - exists []. by rewrite !app_nil_r.
  - destruct (IH (scan_line folder st line))
      as (items & Htodo & Hout & Hlines & Hfolder).
    pose proof (split_count "|" line) as Hcount.
    pose proof (split_join "|" line) as Hjoin.
    rewrite Htodo, Hout. unfold scan_line.
    destruct (decide (str_count "|" line = 2)) as [Hbars|Hbars].
    + rewrite filter_cons_False by (intros Hne; by apply Hne).
      rewrite filter_cons_True by done.
      destruct (Py.split "|" line) as [|a [|b [|c [|d fields]]]];
        cbn [length] in Hcount; try lia.
      assert (Hitem : item_line (Build_WorkItem a b c folder) = line)
        by exact Hjoin.
      exists (Build_WorkItem a b c folder :: items). cbn [todo stdout].
      rewrite <- app_assoc, fmap_cons, Hlines, Hitem.
      repeat split; try done. by constructor.
    + rewrite filter_cons_True by done.
      rewrite filter_cons_False by done.
      exists items.
      destruct (Py.split "|" line) as [|a [|b [|c [|d fields]]]];
        cbn [length] in Hcount; try lia; cbn [todo stdout];
        by rewrite <- app_assoc.
Qed.

(** X11. A file whose name does not end in [.txt] leaves the work list
    and the output as they are.  For a label file that decodes, the work
    list grows, in the order of the file, by one item per line with two
    bars, in the folder of the walk; every other line is printed, in
    order: no line is lost without a trace. *)
Theorem scan_file_accounts root st file :
  (Py.endswith file ".txt" = false → scan_file root st file = Scanned st)
  ∧ (∀ lines,
       Py.endswith file ".txt" = true →
       try_encodings (Py.path_join root [file]) encodings = Lines lines →
       ∃ st' items,
         scan_file root st file = Scanned st'
         ∧ todo st' = todo st ++ items
         ∧ stdout st'
           = stdout st ++ filter (λ line, str_count "|" line ≠ 2) lines
         ∧ item_line <$> items
           = filter (λ line, str_count "|" line = 2) lines
         ∧ Forall (λ item, index_folder item = relpath root dataset_dir)
                  items).
Proof.
  split.
  - intros Hother. unfold scan_file. by rewrite Hother.
  - intros lines Htxt Hlines. unfold scan_file. rewrite Htxt, Hlines.
    destruct (scan_lines (relpath root dataset_dir) lines st)
      as (items & Htodo & Hout & Hitems & Hfolder).
    by eexists _, items.
Qed.

End DiscoveryRuns.

(** *** The path of an audio file *)

Lemma endswith_cons (c : Ascii.ascii) (s p : string) :
  s ≠ EmptyString → String.length p = 1 →
  Py.endswith (String c s) p = Py.endswith s p.
Proof.
  intros Hs Hp. unfold Py.endswith. rewrite Hp.
  destruct s as [|c' s]; [done|]. cbn [String.length].
  rewrite !bool_decide_eq_true_2 by lia.
  replace (S (S (String.length s)) - 1) with (S (S (String.length s) - 1))
    by lia.
  done.
Qed.

Lemma endswith_append_r (a s p : string) :
  s ≠ EmptyString → String.length p = 1 →
  Py.endswith (a +:+ s) p = Py.endswith s p.
Proof.
  intros Hs Hp. induction a as [|c a IH]; [done|].
  change (String c a +:+ s) with (String c (a +:+ s)).
  rewrite endswith_cons; [done| |done].
  by destruct a, s.
Qed.

(** X12. The audio file of an item is looked for, and its tokens are
    saved, under the dataset directory, in the folder of the item, when
    the folder and the name are relative; a name that starts with a slash
    replaces the whole path, so that such an item is read and saved
    outside the dataset directory. *)
Theorem wav_path_cases (item : WorkItem) :
  (Py.startswith (wav_name item) "/" = true →
     wav_path_of item = wav_name item)
  ∧ (Py.startswith (wav_name item) "/" = false →
     Py.startswith (index_folder item) "/" = false →
     index_folder item ≠ EmptyString →
     Py.endswith (index_folder item) "/" = false →
     wav_path_of item
     = "./dataset/" +:+ index_folder item +:+ "/" +:+ wav_name item).
Proof.
  unfold wav_path_of, Py.path_join, dataset_dir. cbn [foldl]. split.
  - intros Habs. unfold Py.join_step at 1. by rewrite Habs.
  - intros Hname Hfolder Hne Hslash.
    unfold Py.join_step at 2. rewrite Hfolder.
    change (String.eqb "./dataset" "" || Py.endswith "./dataset" "/")
      with false. cbn iota.
    unfold Py.join_step. rewrite Hname.
    change ("./dataset" +:+ "/" +:+ index_folder item)
      with ("./dataset/" +:+ index_folder item).
    rewrite endswith_append_r, Hslash by done.
    rewrite orb_false_r.
    change (String.eqb ("./dataset/" +:+ index_folder item) "") with false.
    cbn iota. clear. generalize (index_folder item) (wav_name item).
    intros folder name.
    change ("./dataset/" +:+ folder) with
      (String "." (String "/" (String "d" (String "a" (String "t"
        (String "a" (String "s" (String "e" (String "t"
          (String "/" folder)))))))))).
    cbn [String.append]. done.
Qed.

(** *** Trimming and padding the signal *)

Section TrimFacts.
Implicit Types (masks : list bool) (i f first : nat).

Lemma where_true_elem masks : ∀ i x,
  x ∈ where_true i masks ↔ ∃ k, x = i + k ∧ masks !! k = Some true.
Proof.
  induction masks as [|mask masks IH]; intros i x; cbn [where_true].
  - split; [by intros ?%elem_of_nil|by intros (k & _ & ?)].
  - assert (Htail : x ∈ where_true (S i) masks
                    ↔ ∃ k, x = i + S k ∧ masks !! k = Some true).
    { rewrite IH. split; intros (k & -> & Hk); exists k; split; lia || done. }
    destruct mask.
    + rewrite elem_of_cons, Htail. split.
      * intros [->|(k & -> & Hk)]; [exists 0|exists (S k)];
          split; lia || done.
      * intros ([|k] & -> & Hk); [left; lia|right; by exists k].
    + rewrite Htail. split.
      * intros (k & -> & Hk). by exists (S k).
      * intros ([|k] & -> & Hk); [done|by exists k].
Qed.

(** The flagged frames come in increasing order: the first is the least
    and the last the greatest. *)
Lemma where_true_first masks : ∀ i first rest,
  where_true i masks = first :: rest →
  ∀ x, x ∈ where_true i masks → first ≤ x.
Proof.
  induction masks as [|mask masks IH]; intros i first rest; cbn [where_true];
    [done|].
  destruct mask.
  - intros [= <- _] x [->|Hx]%elem_of_cons; [done|].
    apply where_true_elem in Hx as (k & -> & _). lia.
  - apply IH.
Qed.

Lemma where_true_last masks : ∀ i final,
  last (where_true i masks) = Some final →
  ∀ x, x ∈ where_true i masks → x ≤ final.
Proof.
  induction masks as [|mask masks IH]; intros i final; cbn [where_true];
    [done|].
  destruct mask; [|apply IH].
  destruct (where_true (S i) masks) as [|y w] eqn:Hw.
  - intros [= <-] x ?%list_elem_of_singleton. lia.
  - rewrite last_cons_cons. intros Hlast x [->|Hx]%elem_of_cons.
    + apply last_Some_elem_of in Hlast. rewrite <- Hw in Hlast.
      apply where_true_elem in Hlast as (k & -> & _). lia.
    + apply (IH (S i)); [by rewrite Hw|by rewrite Hw].
Qed.

(** The bounds of lines 47-50 as natural numbers. *)
Lemma trim_bounds_nat masks (samples hop_length : nat) a b :
  trim_bounds masks samples hop_length = Some (a, b) →
  ∃ first final,
    (∀ f, masks !! f = Some true → first ≤ f ≤ final ∧ f < length masks)
    ∧ Z.to_nat a = (first - 1) * hop_length
    ∧ Z.to_nat b
      = samples `min` ((((length masks - 1) `min` (final + 1)) + 1)
                       * hop_length)
    ∧ (0 ≤ a)%Z ∧ (0 ≤ b ≤ Z.of_nat samples)%Z.
Proof.
  unfold trim_bounds.
  destruct (where_true 0 masks) as [|first rest] eqn:Hvalid; [done|].
  destruct (last (first :: rest)) as [final|] eqn:Hlast;
    [|by apply last_None in Hlast].
  cbn [default]. intros [= <- <-]. exists first, final.
  assert (Hin : ∀ f, masks !! f = Some true → f ∈ where_true 0 masks)
    by (intros f Hf; apply where_true_elem; by exists f).
  assert (Hframes : ∀ f, masks !! f = Some true
                         → first ≤ f ≤ final ∧ f < length masks).
  { intros f Hf. split; [split|].
    - apply (where_true_first masks 0 first rest Hvalid). by apply Hin.
    - apply (where_true_last masks 0 final); [by rewrite Hvalid|by apply Hin].
    - by eapply lookup_lt_Some. }
  split; [done|].
  assert (Hfirst : masks !! first = Some true).
  { assert (first ∈ where_true 0 masks) as Hf
      by (rewrite Hvalid; by left).
    by apply where_true_elem in Hf as (k & -> & Hk). }
  destruct (Hframes first Hfirst) as [_ Hlen].
  replace (0 `max` (Z.of_nat first - 1))%Z
    with (Z.of_nat (first - 1)) by lia.
  replace ((Z.of_nat (length masks) - 1) `min` (Z.of_nat final + 1) + 1)%Z
    with (Z.of_nat (((length masks - 1) `min` (final + 1)) + 1)) by lia.
  rewrite <- !Nat2Z.inj_mul, <- Nat2Z.inj_min, !Nat2Z.id.
  generalize ((first - 1) * hop_length).
  generalize (((length masks - 1) `min` (final + 1) + 1) * hop_length).
  intros hi lo. repeat split; lia.
Qed.

Context `{Signal}.
Implicit Types (speech : list Sample).

Lemma torch_trim_part speech (top_db frame_length hop_length : nat) :
  ∃ before after,
    speech
    = before ++ torch_trim speech top_db frame_length hop_length ++ after.
Proof.
  unfold torch_trim.
  destruct (trim_bounds _ (length speech) hop_length) as [[a b]|].
  - unfold Py.slice.
    exists (take (Z.to_nat a) speech),
           (drop (Z.to_nat b - Z.to_nat a) (drop (Z.to_nat a) speech)).
    by rewrite !take_drop.
  - exists [], []. by rewrite app_nil_r.
Qed.

Lemma torch_trim_length speech (top_db frame_length hop_length : nat) :
  length (torch_trim speech top_db frame_length hop_length) ≤ length speech.
Proof.
  destruct (torch_trim_part speech top_db frame_length hop_length)
    as (before & after & Hspeech).
  rewrite Hspeech at 2. rewrite !length_app. lia.
Qed.

(** X13. Trimming returns a run of consecutive samples of the signal,
    the whole signal when no frame is above the threshold; the two
    bounds of the slice of line 51 are never negative, and the end is
    within the signal. *)
Theorem torch_trim_slice speech (top_db frame_length hop_length : nat) :
  let trimmed := torch_trim speech top_db frame_length hop_length in
  let masks := frame_masks speech top_db frame_length hop_length in
  (∃ before after, speech = before ++ trimmed ++ after)
  ∧ length trimmed ≤ length speech
  ∧ ((∀ f, masks !! f ≠ Some true) → trimmed = speech)
  ∧ (∀ a b, trim_bounds masks (length speech) hop_length = Some (a, b) →
       (0 ≤ a)%Z ∧ (0 ≤ b ≤ Z.of_nat (length speech))%Z).
Proof.
  intros trimmed masks.
  split; [apply torch_trim_part|]. split; [apply torch_trim_length|]. split.
  - intros Hnone. subst trimmed. unfold torch_trim. fold masks.
    unfold trim_bounds.
    destruct (where_true 0 masks) as [|first rest] eqn:Hvalid; [done|].
    assert (first ∈ where_true 0 masks) as Hf by (rewrite Hvalid; by left).
    apply where_true_elem in Hf as (k & -> & Hk). by destruct (Hnone k).
  - intros a b Hbounds.
    by destruct (trim_bounds_nat _ _ _ _ _ Hbounds) as (? & ? & _ & _ & _ & ?).
Qed.

(** X14. Frame [f] of the transform is the [frame_length] samples
    around sample [f * hop_length].  When the frames are at most two
    hops long, as with the lengths 440 and 220 that [postprocess] passes,
    trimming keeps every sample of every frame above the threshold, and
    the samples up to the end of the next hop when a later frame exists;
    the samples kept are those of the signal from a common offset on. *)
Theorem torch_trim_keeps speech (top_db frame_length hop_length : nat) :
  frame_length ≤ 2 * hop_length →
  let trimmed := torch_trim speech top_db frame_length hop_length in
  let masks := frame_masks speech top_db frame_length hop_length in
  ∃ offset,
    ∀ f i x,
      masks !! f = Some true →
      f * hop_length ≤ i + frame_length / 2 →
      i + frame_length / 2 < f * hop_length + frame_length
      ∨ (f + 1 < length masks ∧ i < (f + 2) * hop_length) →
      speech !! i = Some x →
      offset ≤ i ∧ trimmed !! (i - offset) = Some x.
Proof.
  intros Hframe trimmed masks. subst trimmed. unfold torch_trim. fold masks.
  pose proof (Nat.div_mod_eq frame_length 2) as Hsplit.
  pose proof (Nat.mod_upper_bound frame_length 2) as Hodd.
  destruct (trim_bounds masks (length speech) hop_length) as [[a b]|]
    eqn:Hbounds.
  - destruct (trim_bounds_nat _ _ _ _ _ Hbounds)
      as (first & final & Hframes & Ha & Hb & _).
    exists (Z.to_nat a). intros f i x Hf Hfrom Hto Hx.
    destruct (Hframes f Hf) as [[Hfirst Hfinal] Hlen].
    pose proof (lookup_lt_Some _ _ _ Hx) as Hsample.
    assert (Hlow : (first - 1) * hop_length + hop_length ≤ f * hop_length
                   ∨ first - 1 = 0).
    { destruct f as [|f]; [right; lia|left].
      rewrite Nat.mul_succ_l.
      assert ((first - 1) * hop_length ≤ f * hop_length)
        by (apply Nat.mul_le_mono_r; lia).
      lia. }
    assert (Hhigh : (f + 1) * hop_length
                    ≤ (((length masks - 1) `min` (final + 1)) + 1)
                      * hop_length)
      by (apply Nat.mul_le_mono_r; lia).
    assert (Hnext : f + 1 < length masks →
                    (f + 2) * hop_length
                    ≤ (((length masks - 1) `min` (final + 1)) + 1)
                      * hop_length)
      by (intros ?; apply Nat.mul_le_mono_r; lia).
    assert (Hoffset : Z.to_nat a ≤ i).
    { rewrite Ha. destruct Hlow as [Hlow|Hzero]; [lia|rewrite Hzero; lia]. }
    assert (Hend : i < Z.to_nat b).
    { rewrite Hb. replace ((f + 1) * hop_length)
        with (f * hop_length + hop_length) in Hhigh by lia.
      destruct Hto as [Hto|[Hlater Hto]]; [lia|].
      specialize (Hnext Hlater). lia. }
    split; [done|]. unfold Py.slice.
    rewrite lookup_take_lt by lia. rewrite lookup_drop.
    by replace (Z.to_nat a + (i - Z.to_nat a)) with i by lia.
  - exists 0. intros f i x _ _ _ Hx. split; [lia|].
    by rewrite Nat.sub_0_r.
Qed.

End TrimFacts.

Section SignalScenarios.
#[local] Existing Instance Fixture.signal.

(** Twelve samples in frames of four, two apart: the two frames that
    hold the fifth and sixth sample are flagged, and the trimmed signal
    runs from the start of the first of them to the end of the hop
    after the second. *)
Example trim_two_frames :
  frame_masks [0; 0; 0; 0; 5; 6; 0; 0; 0; 0; 0; 0]%Z 60 4 2
  = [false; false; true; true; false; false; false]
  ∧ torch_trim [0; 0; 0; 0; 5; 6; 0; 0; 0; 0; 0; 0]%Z 60 4 2
    = [0; 0; 5; 6; 0; 0; 0; 0]%Z.
Proof. by vm_compute. Qed.

(** A silent signal is left as it is. *)
Example trim_silence : torch_trim [0; 0; 0; 0; 0]%Z 60 4 2 = [0; 0; 0; 0; 0]%Z.
Proof. by vm_compute. Qed.

Lemma torch_trim_keeps_witness :
  let speech := [0; 0; 0; 0; 5; 6; 0; 0; 0; 0; 0; 0]%Z in
  4 ≤ 2 * 2
  ∧ ∃ offset,
      ∀ f i x,
        frame_masks speech 60 4 2 !! f = Some true →
        f * 2 ≤ i + 4 / 2 →
        i + 4 / 2 < f * 2 + 4
        ∨ (f + 1 < length (frame_masks speech 60 4 2) ∧ i < (f + 2) * 2) →
        speech !! i = Some x →
        offset ≤ i ∧ torch_trim speech 60 4 2 !! (i - offset) = Some x.
Proof.
  intros speech.
  assert (Hframe : 4 ≤ 2 * 2) by lia.
  split; [exact Hframe|].
  exact (torch_trim_keeps speech 60 4 2 Hframe).
Defined.

End SignalScenarios.
